(** * write-read-test: a shallow embedding of [main.cpp] and its properties

    The program writes a pseudo-random byte stream to a file, forces it to
    the device, reads it back and counts the bytes that differ from the
    regenerated stream.  This development embeds [parse_size] and [main]
    as executable Rocq functions and proves the properties of the
    specification about them.

    Conventions.
    - [uint64_t] values are [Z] with the wrap-around written as [wrap64].
    - A byte is a [Z] in [0, 256).
    - [argv] entries are [string]s; they stand for C strings, so that a NUL
      character, if one is there, ends the argument as [strlen] would see
      it ([string_view]).
    - File and stream operations answer according to an oracle ([os]); the
      calls the program makes and the lines it prints are recorded, in
      order, as a list of [event]s. *)

From Stdlib Require Import ZArith List String Ascii Bool Lia Floats.
From Equations Require Import Equations.
Import ListNotations.

Local Open Scope string_scope.
Local Open Scope list_scope.
Local Open Scope Z_scope.

(* ------------------------------------------------------------------ *)
(** ** Machine integers *)

Definition two64 : Z := 2 ^ 64.

(** [std::numeric_limits<uint64_t>::max()]. *)
Definition UINT64_MAX : Z := two64 - 1.

(** Reduction of an arithmetic result to [uint64_t]. *)
Definition wrap64 (x : Z) : Z := x mod two64.

(* ------------------------------------------------------------------ *)
(** ** C strings and [std::from_chars] *)

Definition NUL : ascii := "000"%char.

(** [std::string_view(s)] for a [const char* s]: the characters before the
    terminating NUL. *)
Fixpoint string_view (s : string) : string :=
  match s with
  | EmptyString => EmptyString
  | String c s' =>
      if Ascii.eqb c NUL then EmptyString else String c (string_view s')
  end.

(** [*p] for a pointer [p] into a C string, given the characters of the view
    from [p] on: at the end of the view it is the terminating NUL. *)
Definition deref (from_p : string) : ascii :=
  match from_p with
  | EmptyString => NUL
  | String c _ => c
  end.

Definition is_digit (c : ascii) : bool :=
  let n := Z.of_N (N_of_ascii c) in (48 <=? n) && (n <=? 57).

Definition digit_value (c : ascii) : Z := Z.of_N (N_of_ascii c) - 48.

(** The longest run of decimal digits at the front of [s]: its value
    (continuing from [acc]) and the characters after it. *)
Fixpoint scan_digits (s : string) (acc : Z) : Z * string :=
  match s with
  | String c s' =>
      if is_digit c then scan_digits s' (10 * acc + digit_value c)
      else (acc, s)
  | EmptyString => (acc, s)
  end.

Inductive errc : Type :=
| errc_none              (* std::errc{} *)
| invalid_argument
| result_out_of_range.

Record from_chars_result : Type := {
  ptr : string;          (* the characters from the returned pointer on *)
  ec : errc
}.

(** [std::from_chars(first, last, value)] for an unsigned 64-bit [value] in
    base 10, after the C++ standard (the function is the standard library's,
    not this repository's): the pattern is a non-empty run of digits, no
    sign; [value] is assigned only on success and is returned second. *)
Definition from_chars (sv : string) (value : Z) : from_chars_result * Z :=
  if is_digit (deref sv) then
    let (v, rest) := scan_digits sv 0 in
    if v <=? UINT64_MAX then ({| ptr := rest; ec := errc_none |}, v)
    else ({| ptr := rest; ec := result_out_of_range |}, value)
  else ({| ptr := sv; ec := invalid_argument |}, value).

(* ------------------------------------------------------------------ *)
(** ** [parse_size] (main.cpp, lines 25-45) *)

(** [size *= 1024] on a [uint64_t]. *)
Definition times_1024 (size : Z) : Z := wrap64 (size * 1024).

Definition is_char (c : ascii) (upper lower : ascii) : bool :=
  Ascii.eqb c upper || Ascii.eqb c lower.

(** The [switch] with its fall-through: label T runs four multiplications,
    G three, M two, K one, NUL none; any other character returns
    [std::nullopt]. *)
Definition apply_suffix (c : ascii) (size : Z) : option Z :=
  if is_char c "T" "t" then
    Some (times_1024 (times_1024 (times_1024 (times_1024 size))))
  else if is_char c "G" "g" then
    Some (times_1024 (times_1024 (times_1024 size)))
  else if is_char c "M" "m" then
    Some (times_1024 (times_1024 size))
  else if is_char c "K" "k" then
    Some (times_1024 size)
  else if Ascii.eqb c NUL then
    Some size
  else None.

Definition parse_size (s : string) : option Z :=
  let size := 0 in
  let sv := string_view s in
  let '(res, size) := from_chars sv size in
  match ec res with
  | errc_none => apply_suffix (deref (ptr res)) size
  | _ => None
  end.

(* ------------------------------------------------------------------ *)
(** ** The pseudo-random engine *)

(** What [main] uses of [Prng]: construction from a seed (which is also what
    [prng.seed(seed)] leaves behind) and [operator()]. *)
Class Engine : Type := {
  engine_state : Type;
  engine_seed : Z -> engine_state;
  engine_next : engine_state -> Z * engine_state
}.

(** [std::mt19937_64], after its definition in the C++ standard
    ([rand.eng.mers], [rand.predef]); the engine is the standard library's,
    not this repository's.  The state is the window of the last [n] values
    of the recurrence, oldest first. *)
Module Mt19937_64.

Definition n : nat := 312.
Definition m : nat := 156.
Definition a : Z := 0xb5026f5aa96619e9.
Definition u : Z := 29.
Definition d : Z := 0x5555555555555555.
Definition s : Z := 17.
Definition b : Z := 0x71d67fffeda60000.
Definition t : Z := 37.
Definition c : Z := 0xfff7eee000000000.
Definition l : Z := 43.
Definition f : Z := 6364136223846793005.
Definition lower_mask : Z := 2 ^ 31 - 1.
Definition upper_mask : Z := two64 - 2 ^ 31.

(** [X_k = f * (X_(k-1) xor (X_(k-1) rshift (w-2))) + k], for [k] from
    [k0] on, [count] values. *)
Fixpoint seed_rest (count : nat) (k : Z) (prev : Z) : list Z :=
  match count with
  | O => []
  | S count' =>
      let x := wrap64 (f * Z.lxor prev (Z.shiftr prev 62) + k) in
      x :: seed_rest count' (k + 1) x
  end.

Definition seed (value : Z) : list Z :=
  let x0 := wrap64 value in
  x0 :: seed_rest (n - 1) 1 x0.

Definition temper (x : Z) : Z :=
  let z1 := Z.lxor x (Z.land (Z.shiftr x u) d) in
  let z2 := Z.lxor z1 (Z.land (Z.shiftl z1 s) b) in
  let z3 := Z.lxor z2 (Z.land (Z.shiftl z2 t) c) in
  Z.lxor z3 (Z.shiftr z3 l).

Definition next (window : list Z) : Z * list Z :=
  let y := Z.lor (Z.land (nth 0 window 0) upper_mask)
                 (Z.land (nth 1 window 0) lower_mask) in
  let alpha := if Z.testbit y 0 then a else 0 in
  let x := Z.lxor (Z.lxor (nth m window 0) (Z.shiftr y 1)) alpha in
  (temper x, tl window ++ [x]).

End Mt19937_64.

(** [Prng]: [std::independent_bits_engine<std::mt19937_64, 64, uint64_t>].
    With 64 requested bits over a base engine whose range is all of
    [uint64_t], every output is one output of the base engine. *)
#[export] Instance Prng : Engine := {|
  engine_state := list Z;
  engine_seed := Mt19937_64.seed;
  engine_next := Mt19937_64.next
|}.

(** [count] successive calls of [prng()]. *)
Fixpoint generate {E : Engine} (count : nat) (prng : engine_state)
  : list Z * engine_state :=
  match count with
  | O => ([], prng)
  | S count' =>
      let (w, prng1) := engine_next prng in
      let (ws, prng2) := generate count' prng1 in
      (w :: ws, prng2)
  end.

(* ------------------------------------------------------------------ *)
(** ** Buffers and their byte view *)

(** [buffer.size()] of [std::array<uint64_t, 1024>]. *)
Definition buffer_size : nat := 1024.

(** [std::span{buffer}.size_bytes()]. *)
Definition buffer_size_bytes : Z := Z.of_nat buffer_size * 8.

(** The object representation of one [uint64_t], least significant byte
    first (the layout of the machines the program is built for; no property
    below depends on the order). *)
Definition word_bytes (w : Z) : list Z :=
  map (fun i => Z.land (Z.shiftr w (8 * Z.of_nat i)) 255) (seq 0 8).

(** [std::as_bytes(std::span{buffer})]. *)
Definition as_bytes (buffer : list Z) : list Z := flat_map word_bytes buffer.

(** The [for] loop that fills [buffer] with [prng()], lines 99-101 and
    148-150: every element is assigned, in index order. *)
Definition fill_buffer {E : Engine} (prng : engine_state)
  : list Z * engine_state :=
  generate buffer_size prng.

(* ------------------------------------------------------------------ *)
(** ** Floating point: the percentages *)

(** Conversion of a [uint64_t] to [double] (round to nearest even). *)
Definition to_double (x : Z) : float :=
  SF2Prim (binary_normalize prec emax x 0 false).

(** [double(part) / total * 100.0]. *)
Definition percent (part total : Z) : float :=
  (to_double part / to_double total * to_double 100)%float.

(* ------------------------------------------------------------------ *)
(** ** Observable behaviour *)

Inductive open_mode : Type := mode_wb | mode_rb.

(** What is sent to [std::cerr]; an argument is printed as the C string it
    is, up to its terminating NUL. *)
Inductive diagnostic : Type :=
| failed_parse_size (arg : string)
| failed_parse_seed (arg : string)
| usage
| failed_open_write
| failed_write
| failed_flush
| failed_fileno
| failed_sync
| failed_close
| failed_open_read
| failed_read.

(** What is sent to [std::cout]; a percentage is kept as the [double] that
    is handed to the stream. *)
Inductive report : Type :=
| Writing (wrote_percent : float)
| Wrote (size : Z)
| Reading (read_percent : float)
| ReadBytes (size : Z)
| Found (num_errors : Z) (error_percent : float).

Inductive event : Type :=
| Cerr (d : diagnostic)
| Cout (r : report)
| Fopen (path : string) (mode : open_mode) (ok : bool)
| Fwrite (data : list Z) (ret : Z)
| Fflush (ok : bool)
| Fileno (ok : bool)
| Fsync (ok : bool)
| Fclose (ok : bool)
| Fread (count : Z) (data : list Z).

Definition nl : string := String "010"%char EmptyString.

Definition USAGE : string :=
  "Writes then reads a psuedo-random sequence to disk, checking the read values are correct."
  ++ nl ++ nl ++
  "Usage: write-read-test [SEED] SIZE PATH" ++ nl ++ nl ++
  "Arguments:" ++ nl ++
  String "009"%char "SEED - The seed for the psuedo-random number generator." ++ nl ++
  String "009"%char "SIZE - The size fo the file to write the read." ++ nl ++
  String "009"%char "PATH - The path to the file to write then read." ++ nl.

(** The text of each diagnostic. *)
Definition message (d : diagnostic) : string :=
  match d with
  | failed_parse_size arg => "Failed to parse size:" ++ arg ++ nl
  | failed_parse_seed arg => "Failed to parse seed:" ++ arg ++ nl
  | usage => USAGE
  | failed_open_write => "Failed to open file for writing" ++ nl
  | failed_write => "Failed to write to file" ++ nl
  | failed_flush => "Failed to flush file writes" ++ nl
  | failed_fileno => "Failed to get output file descriptor" ++ nl
  | failed_sync => "Failed to sync file writes to disk" ++ nl
  | failed_close => "Failed to close written file" ++ nl
  | failed_open_read => "Failed to open file for reading" ++ nl
  | failed_read => "Failed to read to file" ++ nl
  end.

(* ------------------------------------------------------------------ *)
(** ** The environment *)

(** How the C library and the device answer.  [fwrite_room k] is the number
    of bytes the [k]-th call of [fwrite] can take and [fread_avail k] the
    number the [k]-th call of [fread] can deliver (besides the end of the
    file); [medium] gives the content found when the file is opened again as
    a function of the bytes that were written to it. *)
Record os : Type := {
  fopen_wb : string -> bool;
  fwrite_room : nat -> Z;
  fflush_ok : bool;
  fileno_ok : bool;
  fsync_ok : bool;
  fclose_ok : bool;
  medium : list Z -> list Z;
  fopen_rb : string -> bool;
  fread_avail : nat -> Z
}.

(** The value of the [k]-th [std::fwrite(data, 1, count, f)]. *)
Definition fwrite (o : os) (k : nat) (count : Z) : Z :=
  Z.max 0 (Z.min count (fwrite_room o k)).

(** The bytes the [k]-th [std::fread(p, 1, count, f)] stores, [unread] being
    the rest of the file; their number is the value of the call. *)
Definition fread (o : os) (k : nat) (unread : list Z) (count : Z) : list Z :=
  firstn (Z.to_nat (Z.min count (fread_avail o k))) unread.

(* ------------------------------------------------------------------ *)
(** ** Programs: a trace of events and an early [return] *)

Inductive outcome (A : Type) : Type :=
| Continue (x : A)
| Return (status : Z).
Arguments Continue {A} x.
Arguments Return {A} status.

Definition prog (A : Type) : Type := list event * outcome A.

Definition ret {A} (x : A) : prog A := ([], Continue x).

Definition bind {A B} (p : prog A) (k : A -> prog B) : prog B :=
  match p with
  | (evs, Continue x) => let (evs', r) := k x in (evs ++ evs', r)
  | (evs, Return status) => (evs, Return status)
  end.

Definition emit (e : event) : prog unit := ([e], Continue tt).

(** [return status;] in [main]. *)
Definition exit {A} (status : Z) : prog A := ([], Return status).

(** [if (failed) { std::cerr << d; return 1; }] *)
Definition fail_if (failed : bool) (d : diagnostic) : prog unit :=
  if failed then ([Cerr d], Return 1) else ret tt.

(** [p] with the events [evs] before it. *)
Definition after {A} (evs : list event) (p : prog A) : prog A :=
  (evs ++ fst p, snd p).

Declare Scope prog_scope.
Delimit Scope prog_scope with prog.
Notation "x <- p ;; k" := (bind p (fun x => k))
  (at level 61, p at next level, right associativity) : prog_scope.
Notation "p ;; k" := (bind p (fun _ => k))
  (at level 61, right associativity) : prog_scope.

(* ------------------------------------------------------------------ *)
(** ** [main] (main.cpp, lines 53-175) *)

Local Open Scope prog_scope.

(** [seed]'s initial value, line 54. *)
Definition default_seed : Z := 0xb473fa49a165403e.

Definition status_interval : Z := 16 * 1024 * 1024.

(** Lines 110-114 and 164-168: the status line, printed when the count of
    processed bytes is a multiple of [status_interval] or nothing is left. *)
Definition status (line : float -> report) (size bytes_left : Z)
  : prog unit :=
  let bytes_done := wrap64 (size - bytes_left) in
  if (bytes_done mod status_interval =? 0) || (bytes_left =? 0)
  then emit (Cout (line (percent bytes_done size)))
  else ret tt.

(** The arguments, lines 54-85: the seed, the size and the path, or an early
    [return 1].  [argc] is the length of [argv], which holds the program's
    name first.  A seed that does not parse is reported and the default is
    kept: control goes on to the size. *)
Definition parse_args (argv : list string) : prog (Z * Z * string) :=
  let argc := Z.of_nat (List.length argv) in
  let arg i := nth i argv EmptyString in
  let seed := default_seed in
  if argc =? 3 then
    match parse_size (arg 1%nat) with
    | None =>
        emit (Cerr (failed_parse_size (string_view (arg 1%nat)))) ;; exit 1
    | Some size => ret (seed, size, string_view (arg 2%nat))
    end
  else if argc =? 4 then
    let arg1 := string_view (arg 1%nat) in
    let '(res, seed) := from_chars arg1 seed in
    match ec res with
    | errc_none => ret tt
    | _ => emit (Cerr (failed_parse_seed arg1))
    end ;;
    match parse_size (arg 2%nat) with
    | None =>
        emit (Cerr (failed_parse_size (string_view (arg 2%nat)))) ;; exit 1
    | Some size => ret (seed, size, string_view (arg 3%nat))
    end
  else emit (Cerr usage) ;; exit 1.

(** The inner loop of lines 160-162: the first [count] bytes of both views
    are compared, and [num_errors] is incremented at every difference. *)
Fixpoint count_errors (count : nat) (read_bytes buffer_bytes : list Z)
    (num_errors : Z) : Z :=
  match count, read_bytes, buffer_bytes with
  | S count', r :: read_bytes', b :: buffer_bytes' =>
      count_errors count' read_bytes' buffer_bytes'
        (if r =? b then num_errors else wrap64 (num_errors + 1))
  | _, _, _ => num_errors
  end.

(** [fread] stores [data] at the front of the read buffer, whose bytes are
    [read_bytes]. *)
Definition store (data read_bytes : list Z) : list Z :=
  data ++ skipn (List.length data) read_bytes.

Section Program.

Context {E : Engine}.
Variable o : os.

(** The write loop, lines 98-115.  [k] counts the calls of [fwrite] and
    [file] is what the file holds so far; the result is what it holds at
    the end.  [bytes_to_write] is at most [bytes_left], so the subtraction
    does not wrap. *)
Equations? write_loop (size bytes_left : Z) (prng : engine_state)
    (k : nat) (file : list Z) : prog (list Z)
    by wf (Z.to_nat bytes_left) lt :=
  write_loop size bytes_left prng k file with Z_gt_dec bytes_left 0 := {
    | right _ => ret file
    | left _ =>
        let buffer := fst (fill_buffer prng) in
        let prng' := snd (fill_buffer prng) in
        let bytes_to_write := Z.min bytes_left buffer_size_bytes in
        let data := firstn (Z.to_nat bytes_to_write) (as_bytes buffer) in
        let written := fwrite o k bytes_to_write in
        emit (Fwrite data written) ;;
        fail_if (written <? bytes_to_write) failed_write ;;
        let bytes_left' := bytes_left - bytes_to_write in
        status Writing size bytes_left' ;;
        write_loop size bytes_left' prng' (S k)
          (file ++ firstn (Z.to_nat written) data) }.
Proof.
  subst bytes_left' bytes_to_write.
  unfold buffer_size_bytes, buffer_size. lia.
Qed.

(** The read loop, lines 147-169.  [unread] is the part of the file after
    the read position, [read_bytes] the byte view of [read_buffer]; the
    result is [num_errors]. *)
Equations? read_loop (size bytes_left : Z) (prng : engine_state)
    (k : nat) (unread read_bytes : list Z) (num_errors : Z) : prog Z
    by wf (Z.to_nat bytes_left) lt :=
  read_loop size bytes_left prng k unread read_bytes num_errors
    with Z_gt_dec bytes_left 0 := {
    | right _ => ret num_errors
    | left _ =>
        let buffer := fst (fill_buffer prng) in
        let prng' := snd (fill_buffer prng) in
        let bytes_to_read := Z.min bytes_left buffer_size_bytes in
        let data := fread o k unread bytes_to_read in
        emit (Fread bytes_to_read data) ;;
        fail_if (Z.of_nat (List.length data) <? bytes_to_read)
          failed_read ;;
        let read_bytes' := store data read_bytes in
        let bytes_left' := bytes_left - bytes_to_read in
        let buffer_bytes := as_bytes buffer in
        let num_errors' :=
          count_errors (Z.to_nat bytes_to_read) read_bytes' buffer_bytes
            num_errors in
        status Reading size bytes_left' ;;
        read_loop size bytes_left' prng' (S k)
          (skipn (List.length data) unread) read_bytes' num_errors' }.
Proof.
  subst bytes_left' bytes_to_read.
  unfold buffer_size_bytes, buffer_size. lia.
Qed.

(** Lines 87-175: everything after the arguments. *)
Definition test_file (seed size : Z) (path : string) : prog unit :=
  let prng := engine_seed seed in
  let f_out := fopen_wb o path in
  emit (Fopen path mode_wb f_out) ;;
  fail_if (negb f_out) failed_open_write ;;
  file <- write_loop size size prng 0%nat [] ;;
  emit (Fflush (fflush_ok o)) ;;
  fail_if (negb (fflush_ok o)) failed_flush ;;
  emit (Fileno (fileno_ok o)) ;;
  fail_if (negb (fileno_ok o)) failed_fileno ;;
  emit (Fsync (fsync_ok o)) ;;
  fail_if (negb (fsync_ok o)) failed_sync ;;
  emit (Fclose (fclose_ok o)) ;;
  fail_if (negb (fclose_ok o)) failed_close ;;
  emit (Cout (Wrote size)) ;;
  let prng := engine_seed seed in
  let f_in := fopen_rb o path in
  emit (Fopen path mode_rb f_in) ;;
  fail_if (negb f_in) failed_open_read ;;
  let read_bytes := as_bytes (repeat 0 buffer_size) in
  num_errors <- read_loop size size prng 0%nat (medium o file) read_bytes 0 ;;
  let error_percent := percent num_errors size in
  emit (Cout (ReadBytes size)) ;;
  emit (Cout (Found num_errors error_percent)).

(** [main]: the events of the run and the exit status; control that
    reaches the end of [main] returns 0. *)
Definition main (argv : list string) : list event * Z :=
  let p :=
    args <- parse_args argv ;;
    let '(seed, size, path) := args in
    test_file seed size path in
  (fst p, match snd p with Continue _ => 0 | Return status => status end).

End Program.

(** An environment without faults: every call succeeds in full and the file
    is read back as written. *)
Definition ideal_os : os := {|
  fopen_wb := fun _ => true;
  fwrite_room := fun _ => buffer_size_bytes;
  fflush_ok := true;
  fileno_ok := true;
  fsync_ok := true;
  fclose_ok := true;
  medium := fun file => file;
  fopen_rb := fun _ => true;
  fread_avail := fun _ => buffer_size_bytes
|}.

(* ------------------------------------------------------------------ *)
(** ** Vocabulary of the statements *)

(** A string made of decimal digits only. *)
Fixpoint all_digits (s : string) : bool :=
  match s with
  | EmptyString => true
  | String c s' => is_digit c && all_digits s'
  end.

(** A non-empty run of decimal digits. *)
Definition numeral (ds : string) : Prop :=
  ds <> EmptyString /\ all_digits ds = true.

(** The number a run of digits denotes, most significant digit first. *)
Definition decimal (ds : string) : Z :=
  fold_left (fun acc c => 10 * acc + digit_value c)
    (list_ascii_of_string ds) 0.

(** The unit a suffix letter stands for: K is 1024 and each further unit is
    1024 times the previous one. *)
Definition unit_of (c : ascii) : option Z :=
  match c with
  | "K" | "k" => Some 1024
  | "M" | "m" => Some (1024 * 1024)
  | "G" | "g" => Some (1024 * (1024 * 1024))
  | "T" | "t" => Some (1024 * (1024 * (1024 * 1024)))
  | _ => None
  end%char.

(** *** The byte stream of an engine *)

(** The first [n] bytes of the byte view of the words an engine puts out
    from state [prng] on: what a generator in that state stands for,
    whatever the size of the buffers it is read through. *)
Definition stream_bytes {E : Engine} (prng : engine_state) (n : nat)
  : list Z :=
  firstn n (as_bytes (fst (generate (Nat.div (n + 7) 8) prng))).

(** The reference stream of a run: [size] bytes from a generator seeded
    with [seed]. *)
Definition reference {E : Engine} (seed size : Z) : list Z :=
  stream_bytes (engine_seed seed) (Z.to_nat size).

(** *** Counting differences *)

(** The positions below [n] at which two byte sequences differ. *)
Definition mismatch_positions (xs ys : list Z) (n : nat) : list nat :=
  filter (fun p => negb (nth p xs 0 =? nth p ys 0)) (seq 0 n).

(** The same count, along the two lists. *)
Fixpoint differing (xs ys : list Z) : nat :=
  match xs, ys with
  | x :: xs', y :: ys' =>
      ((if Z.eqb x y then 0 else 1) + differing xs' ys')%nat
  | _, _ => 0%nat
  end.

(** *** Chunks *)

(** The byte counts of the successive transfers of [size] bytes through the
    buffer: full buffers, then the remainder if there is one. *)
Definition chunk_sizes (size : Z) : list Z :=
  repeat buffer_size_bytes (Z.to_nat (size / buffer_size_bytes)) ++
  (if size mod buffer_size_bytes =? 0 then []
   else [size mod buffer_size_bytes]).

(** *** Reading a trace *)

(** The bytes the file took, call after call. *)
Definition written (evs : list event) : list Z :=
  flat_map (fun e => match e with
                     | Fwrite data n => firstn (Z.to_nat n) data
                     | _ => []
                     end) evs.

(** The bytes read back, call after call. *)
Definition read_back (evs : list event) : list Z :=
  flat_map (fun e => match e with Fread _ data => data | _ => [] end) evs.

(** For each call of [fwrite]: the count asked for and the value returned. *)
Definition fwrite_calls (evs : list event) : list (Z * Z) :=
  flat_map (fun e => match e with
                     | Fwrite data n => [(Z.of_nat (List.length data), n)]
                     | _ => []
                     end) evs.

(** For each call of [fread]: the count asked for and the number of bytes
    obtained. *)
Definition fread_calls (evs : list event) : list (Z * Z) :=
  flat_map (fun e => match e with
                     | Fread count data =>
                         [(count, Z.of_nat (List.length data))]
                     | _ => []
                     end) evs.

(** The final report of the run, if it got that far: the mismatch counter
    and the percentage printed with it. *)
Definition final_report (evs : list event) : option (Z * float) :=
  fold_right (fun e found => match e with
                             | Cout (Found n pct) => Some (n, pct)
                             | _ => found
                             end) None evs.

Definition mismatch_counter (evs : list event) : option Z :=
  option_map fst (final_report evs).

(** The status lines printed while writing and reading. *)
Definition progress_lines (evs : list event) : list float :=
  flat_map (fun e => match e with
                     | Cout (Writing pct) | Cout (Reading pct) => [pct]
                     | _ => []
                     end) evs.

(** Events of the write loop when no call fails, and of the read loop. *)
Definition write_event (e : event) : bool :=
  match e with
  | Fwrite _ _ | Cout (Writing _) => true
  | _ => false
  end.

Definition read_event (e : event) : bool :=
  match e with
  | Fread _ _ | Cout (Reading _) => true
  | _ => false
  end.

Definition is_reopen (e : event) : bool :=
  match e with
  | Fopen _ mode_rb _ => true
  | _ => false
  end.

(** The diagnostics of a size that does not parse and of a wrong number of
    arguments. *)
Definition arg_failure (d : diagnostic) : bool :=
  match d with
  | failed_parse_size _ | usage => true
  | _ => false
  end.

(** The diagnostics of a file or stream call that failed. *)
Definition io_failure (d : diagnostic) : bool :=
  match d with
  | failed_open_write | failed_write | failed_flush | failed_fileno
  | failed_sync | failed_close | failed_open_read | failed_read => true
  | _ => false
  end.

Definition is_diagnostic (e : event) : bool :=
  match e with
  | Cerr _ => true
  | _ => false
  end.

(** The calls of the durability barrier. *)
Inductive barrier_call : Type :=
| call_fflush
| call_fileno
| call_fsync
| call_fclose.

Definition barrier_calls (evs : list event) : list (barrier_call * bool) :=
  flat_map (fun e => match e with
                     | Fflush ok => [(call_fflush, ok)]
                     | Fileno ok => [(call_fileno, ok)]
                     | Fsync ok => [(call_fsync, ok)]
                     | Fclose ok => [(call_fclose, ok)]
                     | _ => []
                     end) evs.

(** Where a run of lines 87-175 ends: at the call that failed, or at the
    end of [main]. *)
Inductive stage : Type :=
| st_open_write
| st_write
| st_flush
| st_fileno
| st_sync
| st_close
| st_open_read
| st_read
| st_done.

(** The events of a durability barrier that succeeded, and the line printed
    after it. *)
Definition barrier (size : Z) : list event :=
  [Fflush true; Fileno true; Fsync true; Fclose true; Cout (Wrote size)].

(** The trace of a run that ends at [s]; [w] and [rd] are the events of the
    write loop and of the read loop, [num] the final counter. *)
Definition trace_of (path : string) (size : Z) (s : stage)
    (w rd : list event) (num : Z) : list event :=
  match s with
  | st_open_write => [Fopen path mode_wb false; Cerr failed_open_write]
  | st_write => Fopen path mode_wb true :: w ++ [Cerr failed_write]
  | st_flush =>
      Fopen path mode_wb true :: w ++ [Fflush false; Cerr failed_flush]
  | st_fileno =>
      Fopen path mode_wb true :: w ++
      [Fflush true; Fileno false; Cerr failed_fileno]
  | st_sync =>
      Fopen path mode_wb true :: w ++
      [Fflush true; Fileno true; Fsync false; Cerr failed_sync]
  | st_close =>
      Fopen path mode_wb true :: w ++
      [Fflush true; Fileno true; Fsync true; Fclose false; Cerr failed_close]
  | st_open_read =>
      Fopen path mode_wb true :: w ++ barrier size ++
      [Fopen path mode_rb false; Cerr failed_open_read]
  | st_read =>
      Fopen path mode_wb true :: w ++ barrier size ++
      Fopen path mode_rb true :: rd ++ [Cerr failed_read]
  | st_done =>
      Fopen path mode_wb true :: w ++ barrier size ++
      Fopen path mode_rb true :: rd ++
      [Cout (ReadBytes size); Cout (Found num (percent num size))]
  end.

Definition stage_eq_dec (s s' : stage) : {s = s'} + {s <> s'}.
Proof. decide equality. Defined.

Definition outcome_of (s : stage) : outcome unit :=
  match s with
  | st_done => Continue tt
  | _ => Return 1
  end.

(** What the environment did for a run to end at [s]; [content] is what the
    file holds when it is opened again. *)
Definition cause (o : os) (path : string) (size : Z) (content : list Z)
    (s : stage) : Prop :=
  match s with
  | st_open_write => fopen_wb o path = false
  | st_write =>
      fopen_wb o path = true /\
      exists j, fwrite_room o j < buffer_size_bytes
  | st_flush => fopen_wb o path = true /\ fflush_ok o = false
  | st_fileno =>
      fopen_wb o path = true /\ fflush_ok o = true /\ fileno_ok o = false
  | st_sync =>
      fopen_wb o path = true /\ fflush_ok o = true /\
      fileno_ok o = true /\ fsync_ok o = false
  | st_close =>
      fopen_wb o path = true /\ fflush_ok o = true /\
      fileno_ok o = true /\ fsync_ok o = true /\ fclose_ok o = false
  | st_open_read =>
      fopen_wb o path = true /\ fflush_ok o = true /\
      fileno_ok o = true /\ fsync_ok o = true /\ fclose_ok o = true /\
      fopen_rb o path = false
  | st_read =>
      fopen_wb o path = true /\ fflush_ok o = true /\
      fileno_ok o = true /\ fsync_ok o = true /\ fclose_ok o = true /\
      fopen_rb o path = true /\
      ((exists j, fread_avail o j < buffer_size_bytes) \/
       Z.of_nat (List.length content) < size)
  | st_done =>
      fopen_wb o path = true /\ fflush_ok o = true /\
      fileno_ok o = true /\ fsync_ok o = true /\ fclose_ok o = true /\
      fopen_rb o path = true
  end.

(** An environment in which every call on [path] succeeds in full. *)
Definition reliable (o : os) (path : string) : Prop :=
  fopen_wb o path = true /\
  (forall k, buffer_size_bytes <= fwrite_room o k) /\
  fflush_ok o = true /\ fileno_ok o = true /\
  fsync_ok o = true /\ fclose_ok o = true /\
  fopen_rb o path = true /\
  (forall k, buffer_size_bytes <= fread_avail o k).

(** What holds of a run of lines 87-175 that reaches the end of [main] with
    the events [evs] and the counter [n]. *)
Definition completed {E : Engine} (o : os) (seed size : Z)
    (evs : list event) (n : Z) : Prop :=
  final_report evs = Some (n, percent n size) /\
  written evs = reference seed size /\
  fwrite_calls evs = map (fun n => (n, n)) (chunk_sizes size) /\
  read_back evs =
    firstn (Z.to_nat size) (medium o (reference seed size)) /\
  List.length (read_back evs) = Z.to_nat size /\
  n = Z.of_nat (differing (read_back evs) (reference seed size)) /\
  fread_calls evs = map (fun n => (n, n)) (chunk_sizes size).

(** *** Environments used as instances *)

(** A device that changes the byte at position [p] of the file. *)
Definition corrupt_at (p : nat) (file : list Z) : list Z :=
  firstn p file ++
  match skipn p file with
  | [] => []
  | b :: rest => Z.lxor b 1 :: rest
  end.

(** A device on which [fsync] fails. *)
Definition fsync_failing_os : os := {|
  fopen_wb := fun _ => true;
  fwrite_room := fun _ => buffer_size_bytes;
  fflush_ok := true;
  fileno_ok := true;
  fsync_ok := false;
  fclose_ok := true;
  medium := fun file => file;
  fopen_rb := fun _ => true;
  fread_avail := fun _ => buffer_size_bytes
|}.

(** A device that is full after [room] bytes. *)
Definition full_after (room : Z) : os := {|
  fopen_wb := fun _ => true;
  fwrite_room := fun k => room - Z.of_nat k * buffer_size_bytes;
  fflush_ok := true;
  fileno_ok := true;
  fsync_ok := true;
  fclose_ok := true;
  medium := fun file => file;
  fopen_rb := fun _ => true;
  fread_avail := fun _ => buffer_size_bytes
|}.

(** A device that keeps only the first [len] bytes of the file. *)
Definition truncating_os (len : nat) : os := {|
  fopen_wb := fun _ => true;
  fwrite_room := fun _ => buffer_size_bytes;
  fflush_ok := true;
  fileno_ok := true;
  fsync_ok := true;
  fclose_ok := true;
  medium := firstn len;
  fopen_rb := fun _ => true;
  fread_avail := fun _ => buffer_size_bytes
|}.

(** A device without faults except that the byte at position [p] comes
    back changed. *)
Definition corrupting_os (p : nat) : os := {|
  fopen_wb := fun _ => true;
  fwrite_room := fun _ => buffer_size_bytes;
  fflush_ok := true;
  fileno_ok := true;
  fsync_ok := true;
  fclose_ok := true;
  medium := corrupt_at p;
  fopen_rb := fun _ => true;
  fread_avail := fun _ => buffer_size_bytes
|}.

(** *** Arguments and calls *)

(** The argument that [main] reads as SIZE: the second of three, the third
    of four. *)
Definition size_argument (argv : list string) : option string :=
  match List.length argv with
  | 3%nat => Some (nth 1 argv EmptyString)
  | 4%nat => Some (nth 2 argv EmptyString)
  | _ => None
  end.

(** A call that was answered in full, and one that fell short: the count
    asked for and the count obtained. *)
Definition full_call (c : Z * Z) : bool := snd c =? fst c.

Definition short_call (c : Z * Z) : bool := snd c <? fst c.

(** What every call of [fwrite] and [fread] of the program satisfies: it
    asks for at least one byte and at most a buffer, and obtains no more
    than it asks for. *)
Definition call_ok (c : Z * Z) : Prop :=
  0 < fst c <= buffer_size_bytes /\ 0 <= snd c <= fst c.

(** The number of bytes obtained by a list of calls. *)
Definition bytes_moved (calls : list (Z * Z)) : Z :=
  fold_right Z.add 0 (map snd calls).

(** The number of status lines of each kind. *)
Definition writing_lines (evs : list event) : nat :=
  List.length (filter (fun e => match e with
                                | Cout (Writing _) => true
                                | _ => false
                                end) evs).

Definition reading_lines (evs : list event) : nat :=
  List.length (filter (fun e => match e with
                                | Cout (Reading _) => true
                                | _ => false
                                end) evs).

(** The number of status lines that a loop prints from [bytes_left] on when
    it finishes: one at each multiple of [status_interval] that is still
    to be passed, and one at the end. *)
Definition lines_from (size bytes_left : Z) : Z :=
  if bytes_left =? 0 then 0
  else (size - 1) / status_interval - (size - bytes_left) / status_interval
       + 1.

(** The events of two runs of lines 87-175 with seed 42 and 10000 bytes, a
    buffer and a part of one: on the device without faults, and on one that
    changes byte 9000. *)
Definition sample_run : list event :=
  fst (test_file (E := Prng) ideal_os 42 10000 "scratch").

Definition corrupted_run : list event :=
  fst (test_file (E := Prng) (corrupting_os (Z.to_nat 9000)) 42 10000
         "scratch").

(* ------------------------------------------------------------------ *)
(** ** The model at work *)

Section Examples.

(** The first output of a default-seeded [std::mt19937_64], and the value
    the C++ standard requires of its 10000th output. *)
Example mt19937_64_10000th :
  hd 0 (fst (generate (E := Prng) 1 (engine_seed 5489))) =
    14514284786278117030 /\
  last (fst (generate (E := Prng) (Z.to_nat 10000) (engine_seed 5489))) 0 =
    9981545732273789042.
Proof. vm_compute. split; reflexivity. Qed.

Example word_bytes_order :
  word_bytes 0x0102030405060708 = [8; 7; 6; 5; 4; 3; 2; 1].
Proof. reflexivity. Qed.

Example message_example :
  message failed_sync = ("Failed to sync file writes to disk" ++ nl)%string.
Proof. reflexivity. Qed.

Example percent_half : percent 5000 10000 = 50%float.
Proof. reflexivity. Qed.

Example parse_size_examples :
  parse_size "4096" = Some 4096 /\ parse_size "1k" = Some 1024 /\
  parse_size "2t" = Some (2 * 1024 ^ 4) /\
  parse_size "007" = Some 7 /\
  parse_size "18446744073709551615" = Some UINT64_MAX /\
  parse_size "18446744073709551616" = None /\
  parse_size "+5" = None /\ parse_size " 5" = None /\
  parse_size "-1" = None /\ parse_size "1.5K" = None /\
  parse_size "K" = None.
Proof. repeat split; reflexivity. Qed.

Example chunk_sizes_examples :
  chunk_sizes 10000 = [8192; 1808] /\ chunk_sizes 16384 = [8192; 8192] /\
  chunk_sizes 5 = [5] /\ chunk_sizes 0 = [].
Proof. repeat split; reflexivity. Qed.

(** Wrong number of arguments. *)
Example run_usage :
  main (E := Prng) ideal_os ["write-read-test"; "scratch"] = ([Cerr usage], 1).
Proof. reflexivity. Qed.

(** A run of three bytes with a seed given. *)
Example run_three_bytes :
  main (E := Prng) ideal_os ["write-read-test"; "5489"; "3"; "scratch"] =
    ([Fopen "scratch" mode_wb true; Fwrite [166; 174; 246] 3;
      Cout (Writing 100); Fflush true; Fileno true; Fsync true; Fclose true;
      Cout (Wrote 3); Fopen "scratch" mode_rb true; Fread 3 [166; 174; 246];
      Cout (Reading 100); Cout (ReadBytes 3); Cout (Found 0 0)], 0).
Proof. vm_compute. reflexivity. Qed.

(** [fsync] fails: the run stops there. *)
Example run_fsync_fails :
  main (E := Prng) fsync_failing_os ["write-read-test"; "5489"; "3"; "scratch"]
  = ([Fopen "scratch" mode_wb true; Fwrite [166; 174; 246] 3;
      Cout (Writing 100); Fflush true; Fileno true; Fsync false;
      Cerr failed_sync], 1).
Proof. vm_compute. reflexivity. Qed.

(** The device is full after 9000 bytes: the second [fwrite] falls short. *)
Example run_device_full :
  let r := main (E := Prng) (full_after 9000)
             ["write-read-test"; "10000"; "scratch"] in
  fwrite_calls (fst r) = [(8192, 8192); (1808, 808)] /\
  last (fst r) (Cerr usage) = Cerr failed_write /\ snd r = 1.
Proof. vm_compute. repeat split; reflexivity. Qed.

(** The file comes back shorter than it was written: [fread] falls short. *)
Example run_file_truncated :
  let r := main (E := Prng) (truncating_os (Z.to_nat 9000))
             ["write-read-test"; "10000"; "scratch"] in
  fread_calls (fst r) = [(8192, 8192); (1808, 808)] /\
  last (fst r) (Cerr usage) = Cerr failed_read /\ snd r = 1.
Proof. vm_compute. repeat split; reflexivity. Qed.

(** One byte of the file is changed: the run completes and counts it. *)
Example run_one_byte_changed :
  let r := main (E := Prng) (corrupting_os (Z.to_nat 9000))
             ["write-read-test"; "10000"; "scratch"] in
  mismatch_counter (fst r) = Some 1 /\ snd r = 0.
Proof. vm_compute. repeat split; reflexivity. Qed.

End Examples.

(* ------------------------------------------------------------------ *)
(** ** Properties of [parse_size] *)

Section ParseSize.

Lemma deref_string_view (s : string) : deref (string_view s) = deref s.
Proof.
  destruct s as [|c s]; simpl; [reflexivity|].
  destruct (Ascii.eqb c NUL) eqn:Hc; simpl; [|reflexivity].
  apply Ascii.eqb_eq in Hc. now subst.
Qed.

Lemma is_digit_not_NUL (c : ascii) : is_digit c = true -> Ascii.eqb c NUL = false.
Proof.
  intros H. destruct (Ascii.eqb c NUL) eqn:Hc; [|reflexivity].
  apply Ascii.eqb_eq in Hc. subst. discriminate.
Qed.

Lemma string_view_digits (ds rest : string) :
  all_digits ds = true ->
  string_view (ds ++ rest) = (ds ++ string_view rest)%string.
Proof.
  induction ds as [|c ds IH]; simpl; intros H; [reflexivity|].
  apply andb_true_iff in H as [Hc Hds].
  rewrite (is_digit_not_NUL c Hc), IH by assumption. reflexivity.
Qed.

Lemma scan_digits_fold (ds rest : string) (acc : Z) :
  all_digits ds = true ->
  is_digit (deref rest) = false ->
  scan_digits (ds ++ rest) acc =
    (fold_left (fun acc c => 10 * acc + digit_value c)
       (list_ascii_of_string ds) acc, rest).
Proof.
  revert acc. induction ds as [|c ds IH]; simpl; intros acc Hds Hrest.
  - destruct rest as [|c rest]; simpl in *; [reflexivity|].
    now rewrite Hrest.
  - apply andb_true_iff in Hds as [Hc Hds]. rewrite Hc. now apply IH.
Qed.

(** What [from_chars] answers on a numeral followed by anything that does
    not start with a digit. *)
Lemma from_chars_numeral (ds rest : string) (value : Z) :
  numeral ds ->
  is_digit (deref rest) = false ->
  from_chars (ds ++ rest) value =
    if decimal ds <=? UINT64_MAX
    then ({| ptr := rest; ec := errc_none |}, decimal ds)
    else ({| ptr := rest; ec := result_out_of_range |}, value).
Proof.
  intros [Hne Hds] Hrest. unfold from_chars.
  assert (Hfirst : is_digit (deref (ds ++ rest)) = true).
  { destruct ds as [|c ds]; [congruence|]. simpl in *.
    now apply andb_true_iff in Hds as [Hc _]. }
  rewrite Hfirst, scan_digits_fold by assumption. reflexivity.
Qed.

Lemma from_chars_no_digit (sv : string) (value : Z) :
  is_digit (deref sv) = false ->
  from_chars sv value = ({| ptr := sv; ec := invalid_argument |}, value).
Proof. intros H. unfold from_chars. now rewrite H. Qed.

(** [parse_size] looks at the numeral and at the one character after it. *)
Lemma parse_size_numeral_then (ds : string) (c : ascii) (rest : string) :
  numeral ds ->
  is_digit c = false ->
  parse_size (ds ++ String c rest) =
    if decimal ds <=? UINT64_MAX then apply_suffix c (decimal ds) else None.
Proof.
  intros Hnum Hc. unfold parse_size.
  rewrite string_view_digits by apply Hnum.
  assert (Hd : deref (string_view (String c rest)) = c)
    by now rewrite deref_string_view.
  rewrite from_chars_numeral; [|assumption|now rewrite Hd].
  destruct (decimal ds <=? UINT64_MAX); cbn [ec ptr];
    [now rewrite Hd|reflexivity].
Qed.

Lemma parse_size_numeral (ds : string) :
  numeral ds ->
  parse_size ds =
    if decimal ds <=? UINT64_MAX then Some (decimal ds) else None.
Proof.
  intros Hnum. unfold parse_size.
  replace ds with (ds ++ EmptyString)%string at 1
    by (clear; induction ds; simpl; congruence).
  rewrite string_view_digits by apply Hnum. simpl string_view.
  rewrite from_chars_numeral by (assumption || reflexivity).
  destruct (decimal ds <=? UINT64_MAX); reflexivity.
Qed.

Lemma parse_size_no_digit (s : string) :
  is_digit (deref s) = false -> parse_size s = None.
Proof.
  intros H. unfold parse_size.
  rewrite from_chars_no_digit by now rewrite deref_string_view.
  reflexivity.
Qed.

Lemma wrap64_mul_l (x y : Z) : wrap64 (wrap64 x * y) = wrap64 (x * y).
Proof. unfold wrap64. apply Z.mul_mod_idemp_l. unfold two64. lia. Qed.

Lemma wrap64_small (x : Z) : 0 <= x <= UINT64_MAX -> wrap64 x = x.
Proof. unfold wrap64, UINT64_MAX. intros. apply Z.mod_small. lia. Qed.

(** The fall-through multiplications amount to one multiplication by the
    unit, reduced to 64 bits. *)
Lemma apply_suffix_unit (c : ascii) (f size : Z) :
  unit_of c = Some f -> apply_suffix c size = Some (wrap64 (size * f)).
Proof.
  intros H.
  destruct c as [[|] [|] [|] [|] [|] [|] [|] [|]];
    simpl in H; try discriminate H;
    injection H as <-; unfold apply_suffix, is_char;
    cbn [Ascii.eqb Bool.eqb orb andb];
    unfold times_1024;
    repeat (rewrite <- ?Z.mul_assoc, wrap64_mul_l);
    do 2 f_equal; ring.
Qed.

Lemma apply_suffix_other (c : ascii) (size : Z) :
  unit_of c = None -> c <> NUL -> apply_suffix c size = None.
Proof.
  intros H Hnul.
  destruct c as [[|] [|] [|] [|] [|] [|] [|] [|]];
    simpl in H; try discriminate H;
    try reflexivity.
  now elim Hnul.
Qed.

Lemma unit_of_not_digit (c : ascii) (f : Z) :
  unit_of c = Some f -> is_digit c = false.
Proof.
  destruct c as [[|] [|] [|] [|] [|] [|] [|] [|]];
    simpl; intros H; try discriminate H; reflexivity.
Qed.

Lemma fold_digits_nonneg (ds : string) (acc : Z) :
  all_digits ds = true -> 0 <= acc ->
  0 <= fold_left (fun acc c => 10 * acc + digit_value c)
         (list_ascii_of_string ds) acc.
Proof.
  revert acc.
  induction ds as [|c ds IH];
    cbn [list_ascii_of_string fold_left all_digits];
    intros acc Hds Hacc; [assumption|].
  apply andb_true_iff in Hds as [Hc Hds]. apply IH; [assumption|].
  unfold is_digit in Hc. apply andb_true_iff in Hc as [Hlo _].
  apply Z.leb_le in Hlo. unfold digit_value. lia.
Qed.

Lemma decimal_nonneg (ds : string) : all_digits ds = true -> 0 <= decimal ds.
Proof. intros H. now apply fold_digits_nonneg. Qed.

Lemma unit_of_cases (c : ascii) (f : Z) :
  unit_of c = Some f <->
  ((c = "K" \/ c = "k") /\ f = 1024 \/
   (c = "M" \/ c = "m") /\ f = 1024 * 1024 \/
   (c = "G" \/ c = "g") /\ f = 1024 * 1024 * 1024 \/
   (c = "T" \/ c = "t") /\ f = 1024 * 1024 * 1024 * 1024)%char.
Proof.
  split.
  - destruct c as [[|] [|] [|] [|] [|] [|] [|] [|]];
      simpl; intros H; try discriminate H; injection H as <-; intuition.
  - intros [[[-> | ->] ->] | [[[-> | ->] ->] | [[[-> | ->] ->] | [[-> | ->] ->]]]];
      reflexivity.
Qed.

Lemma unit_of_bounds (c : ascii) (f : Z) : unit_of c = Some f -> 1024 <= f.
Proof. rewrite unit_of_cases. lia. Qed.

(** A numeral with a unit letter, then anything. *)
Lemma parse_size_unit (ds : string) (c : ascii) (f : Z) (rest : string) :
  numeral ds -> decimal ds <= UINT64_MAX -> unit_of c = Some f ->
  parse_size (ds ++ String c rest) = Some (wrap64 (decimal ds * f)).
Proof.
  intros Hnum Hmax Hf.
  rewrite parse_size_numeral_then
    by (assumption || eapply unit_of_not_digit; eassumption).
  apply Z.leb_le in Hmax. rewrite Hmax. now apply apply_suffix_unit.
Qed.

End ParseSize.

(** C4. Size-suffix parsing.  [parse_size] maps "1K" to 1024, "2M" to
    2097152, "1" to 1 and "3G" to 3 * 1024^3.  The unit letters are K, M, G
    and T in either case, each unit 1024 times the previous one; a numeral
    followed by a unit letter denotes the product (as long as it fits in 64
    bits) and a numeral alone denotes itself.  An argument that does not
    start with a digit (the empty one included) or whose numeral is followed
    by a character that is no unit letter is rejected ("5X", "abc", ""), and
    [main] then reports the argument as its last diagnostic and returns 1,
    with three arguments as with four. *)
Theorem parse_size_suffixes :
  (parse_size "1K" = Some 1024 /\ parse_size "2M" = Some 2097152 /\
   parse_size "1" = Some 1 /\ parse_size "3G" = Some (3 * 1024 ^ 3)) /\
  (forall c f, unit_of c = Some f <->
     ((c = "K" \/ c = "k") /\ f = 1024 \/
      (c = "M" \/ c = "m") /\ f = 1024 * 1024 \/
      (c = "G" \/ c = "g") /\ f = 1024 * 1024 * 1024 \/
      (c = "T" \/ c = "t") /\ f = 1024 * 1024 * 1024 * 1024)%char) /\
  (forall ds c f,
     numeral ds -> unit_of c = Some f -> decimal ds * f <= UINT64_MAX ->
     parse_size (ds ++ String c EmptyString) = Some (decimal ds * f)) /\
  (forall ds,
     numeral ds -> decimal ds <= UINT64_MAX ->
     parse_size ds = Some (decimal ds)) /\
  (forall s, is_digit (deref s) = false -> parse_size s = None) /\
  (forall ds c rest,
     numeral ds -> is_digit c = false -> c <> NUL -> unit_of c = None ->
     parse_size (ds ++ String c rest) = None) /\
  (parse_size "5X" = None /\ parse_size "abc" = None /\
   parse_size "" = None) /\
  (forall (E : Engine) (o : os) (name seed_arg arg path : string),
     parse_size arg = None ->
     main o [name; arg; path] =
       ([Cerr (failed_parse_size (string_view arg))], 1) /\
     snd (main o [name; seed_arg; arg; path]) = 1 /\
     exists pre,
       fst (main o [name; seed_arg; arg; path]) =
         pre ++ [Cerr (failed_parse_size (string_view arg))] /\
       forallb is_diagnostic pre = true).
Proof.
  split; [repeat split; reflexivity|].
  split; [exact unit_of_cases|].
  split.
  { intros ds c f Hnum Hf Hfit.
    pose proof (decimal_nonneg ds (proj2 Hnum)) as H0.
    pose proof (unit_of_bounds c f Hf) as Hb.
    rewrite (parse_size_unit ds c f EmptyString Hnum) by (assumption || nia).
    rewrite wrap64_small by nia. reflexivity. }
  split.
  { intros ds Hnum Hmax. rewrite parse_size_numeral by assumption.
    apply Z.leb_le in Hmax. now rewrite Hmax. }
  split; [exact parse_size_no_digit|].
  split.
  { intros ds c rest Hnum Hc Hnul Hu.
    rewrite parse_size_numeral_then by assumption.
    destruct (decimal ds <=? UINT64_MAX); [|reflexivity].
    now apply apply_suffix_other. }
  split; [repeat split; reflexivity|].
  intros E o name seed_arg arg path Hnone. split.
  - unfold main, parse_args. cbn [List.length Z.of_nat nth].
    change (Z.of_nat 3 =? 3) with true. cbv iota. rewrite Hnone.
    reflexivity.
  - unfold main, parse_args. cbn [List.length Z.of_nat nth].
    change (Z.of_nat 4 =? 3) with false. change (Z.of_nat 4 =? 4) with true.
    cbv iota zeta.
    destruct (from_chars (string_view seed_arg) default_seed) as [res seed].
    rewrite Hnone.
    destruct (ec res); cbn; (split; [reflexivity|]);
      [exists []
      |exists [Cerr (failed_parse_seed (string_view seed_arg))]
      |exists [Cerr (failed_parse_seed (string_view seed_arg))]];
      split; reflexivity.
Qed.

(** C9. After a numeral that fits in 64 bits and a unit letter, the rest of
    the argument is not looked at: the result is the one for the numeral and
    the letter alone, namely their product reduced to 64 bits; so "1KB" and
    "7Mxyz" are accepted. *)
Theorem parse_size_trailing_ignored (ds : string) (c : ascii) (f : Z)
    (rest : string) :
  numeral ds -> decimal ds <= UINT64_MAX -> unit_of c = Some f ->
  parse_size (ds ++ String c rest) = parse_size (ds ++ String c EmptyString) /\
  parse_size (ds ++ String c rest) = Some (wrap64 (decimal ds * f)).
Proof.
  intros Hnum Hmax Hf.
  now rewrite !(parse_size_unit ds c f _ Hnum).
Qed.

Lemma parse_size_trailing_ignored_witness :
  (parse_size "7Mxyz" = parse_size "7M" /\
   parse_size "7Mxyz" = Some (7 * 1024 ^ 2)) /\
  (parse_size "1KB" = parse_size "1K" /\ parse_size "1KB" = Some 1024).
Proof.
  split.
  - apply (parse_size_trailing_ignored "7" "M" (1024 * 1024) "xyz").
    + split; [discriminate | reflexivity].
    + vm_compute. discriminate.
    + reflexivity.
  - apply (parse_size_trailing_ignored "1" "K" 1024 "B").
    + split; [discriminate | reflexivity].
    + vm_compute. discriminate.
    + reflexivity.
Defined.

(** C10. When the numeral fits in 64 bits but its product with the unit
    does not, [parse_size] still succeeds and returns the product modulo
    2^64: there is no overflow check.  "16777216T" yields 0. *)
Theorem parse_size_wraps (ds : string) (c : ascii) (f : Z) :
  numeral ds -> decimal ds <= UINT64_MAX -> unit_of c = Some f ->
  decimal ds * f > UINT64_MAX ->
  parse_size (ds ++ String c EmptyString) = Some ((decimal ds * f) mod 2 ^ 64).
Proof.
  intros Hnum Hmax Hf _. now rewrite (parse_size_unit ds c f _ Hnum).
Qed.

Lemma parse_size_wraps_witness : parse_size "16777216T" = Some 0.
Proof.
  apply (parse_size_wraps "16777216" "T" (1024 * (1024 * (1024 * 1024)))).
  - split; [discriminate | reflexivity].
  - vm_compute. discriminate.
  - reflexivity.
  - vm_compute. reflexivity.
Defined.

(* ------------------------------------------------------------------ *)
(** ** The byte stream of an engine *)

Section Stream.

Context {E : Engine}.

Lemma generate_length (count : nat) (prng : engine_state) :
  List.length (fst (generate count prng)) = count.
Proof.
  revert prng. induction count as [|count IH]; intros prng; simpl.
  - reflexivity.
  - destruct (engine_next prng) as [w prng1].
    specialize (IH prng1). destruct (generate count prng1) as [ws prng2].
    simpl in *. now rewrite IH.
Qed.

(** Generating [a + b] words is generating [a], then [b]. *)
Lemma generate_add (a b : nat) (prng : engine_state) :
  generate (a + b) prng =
    (fst (generate a prng) ++ fst (generate b (snd (generate a prng))),
     snd (generate b (snd (generate a prng)))).
Proof.
  revert prng. induction a as [|a IH]; intros prng; simpl.
  - now destruct (generate b prng).
  - destruct (engine_next prng) as [w prng1]. rewrite IH.
    destruct (generate a prng1) as [ws prng2]. reflexivity.
Qed.

Lemma word_bytes_length (w : Z) : List.length (word_bytes w) = 8%nat.
Proof. reflexivity. Qed.

Lemma as_bytes_length (ws : list Z) :
  List.length (as_bytes ws) = (8 * List.length ws)%nat.
Proof.
  induction ws as [|w ws IH]; [reflexivity|].
  change (as_bytes (w :: ws)) with (word_bytes w ++ as_bytes ws).
  rewrite length_app, word_bytes_length, IH. simpl List.length. lia.
Qed.

Lemma as_bytes_app (ws ws' : list Z) :
  as_bytes (ws ++ ws') = as_bytes ws ++ as_bytes ws'.
Proof. apply flat_map_app. Qed.

Lemma stream_bytes_0 (prng : engine_state) : stream_bytes prng 0 = [].
Proof. reflexivity. Qed.

Lemma stream_bytes_length (prng : engine_state) (n : nat) :
  List.length (stream_bytes prng n) = n.
Proof.
  unfold stream_bytes. rewrite length_firstn, as_bytes_length, generate_length.
  pose proof (Nat.div_mod_eq (n + 7) 8).
  pose proof (Nat.mod_upper_bound (n + 7) 8). lia.
Qed.

(** Reading the stream through more words than needed gives the same
    bytes. *)
Lemma stream_bytes_prefix (count n : nat) (prng : engine_state) :
  (n <= 8 * count)%nat ->
  firstn n (as_bytes (fst (generate count prng))) = stream_bytes prng n.
Proof.
  intros Hn. unfold stream_bytes.
  set (w := Nat.div (n + 7) 8).
  assert (Hw : (n <= 8 * w /\ w <= count)%nat).
  { subst w. pose proof (Nat.div_mod_eq (n + 7) 8).
    pose proof (Nat.mod_upper_bound (n + 7) 8). lia. }
  replace count with (w + (count - w))%nat by lia.
  rewrite generate_add. cbn [fst]. rewrite as_bytes_app, firstn_app.
  rewrite as_bytes_length, generate_length.
  replace (n - 8 * w)%nat with 0%nat by lia.
  rewrite firstn_O. apply app_nil_r.
Qed.

(** The stream read through a buffer of [count] words: the part of the
    first buffer that is needed, then the stream of the generator as the
    buffer left it. *)
Lemma stream_bytes_chunk (count n : nat) (prng : engine_state) :
  stream_bytes prng n =
    firstn (Nat.min n (8 * count)) (as_bytes (fst (generate count prng)))
    ++ stream_bytes (snd (generate count prng)) (n - Nat.min n (8 * count)).
Proof.
  destruct (Nat.le_gt_cases n (8 * count)) as [Hle | Hgt].
  - rewrite Nat.min_l, Nat.sub_diag, stream_bytes_0, app_nil_r by assumption.
    symmetry. now apply stream_bytes_prefix.
  - rewrite Nat.min_r by lia.
    rewrite firstn_all2 by (rewrite as_bytes_length, generate_length; lia).
    set (w := Nat.div (n - 8 * count + 7) 8).
    rewrite <- (stream_bytes_prefix (count + w) n prng).
    + rewrite generate_add. cbn [fst]. rewrite as_bytes_app, firstn_app.
      rewrite as_bytes_length, generate_length.
      rewrite firstn_all2
        by (rewrite as_bytes_length, generate_length; lia).
      reflexivity.
    + subst w. pose proof (Nat.div_mod_eq (n - 8 * count + 7) 8).
      pose proof (Nat.mod_upper_bound (n - 8 * count + 7) 8). lia.
Qed.

End Stream.

(* ------------------------------------------------------------------ *)
(** ** Counting differences *)

Section Differences.

Lemma differing_same (xs : list Z) : differing xs xs = 0%nat.
Proof.
  induction xs as [|x xs IH]; simpl; [reflexivity|].
  now rewrite Z.eqb_refl, IH.
Qed.

Lemma differing_le (xs ys : list Z) :
  (differing xs ys <= List.length xs)%nat.
Proof.
  revert ys. induction xs as [|x xs IH]; intros [|y ys]; simpl; try lia.
  specialize (IH ys). destruct (x =? y); lia.
Qed.

Lemma differing_app (xs xs' ys ys' : list Z) :
  List.length xs = List.length ys ->
  differing (xs ++ xs') (ys ++ ys') =
    (differing xs ys + differing xs' ys')%nat.
Proof.
  revert ys. induction xs as [|x xs IH]; intros [|y ys] Hlen;
    simpl in *; try discriminate; [reflexivity|].
  rewrite IH by lia. lia.
Qed.

Lemma filter_shift_length (f : nat -> bool) (start n : nat) :
  List.length (filter f (seq (S start) n)) =
  List.length (filter (fun p => f (S p)) (seq start n)).
Proof.
  revert start. induction n as [|n IH]; intros start; simpl; [reflexivity|].
  destruct (f (S start)); simpl; now rewrite IH.
Qed.

(** [differing] counts the positions at which the lists differ. *)
Lemma differing_positions (xs ys : list Z) :
  List.length xs = List.length ys ->
  differing xs ys =
    List.length (mismatch_positions xs ys (List.length xs)).
Proof.
  unfold mismatch_positions.
  revert ys. induction xs as [|x xs IH]; intros [|y ys] Hlen;
    simpl in *; try discriminate; [reflexivity|].
  destruct (x =? y); cbn [negb List.length];
    rewrite filter_shift_length; cbn [nth];
    rewrite <- (IH ys) by lia; reflexivity.
Qed.

(** A difference somewhere makes the count positive. *)
Lemma differing_pos (xs ys : list Z) (p : nat) :
  (p < List.length xs)%nat -> (p < List.length ys)%nat ->
  nth p xs 0 <> nth p ys 0 -> (1 <= differing xs ys)%nat.
Proof.
  revert xs ys. induction p as [|p IH]; intros [|x xs] [|y ys];
    simpl; intros Hx Hy Hne; try lia.
  - apply Z.eqb_neq in Hne. rewrite Hne. lia.
  - specialize (IH xs ys). lia.
Qed.

(** The comparison loop adds the number of differing bytes; the counter
    cannot wrap while it is at most the number of bytes compared. *)
Lemma count_errors_differing (count : nat) (xs ys : list Z) (num : Z) :
  0 <= num -> num + Z.of_nat count <= UINT64_MAX ->
  count_errors count xs ys num =
    num + Z.of_nat (differing (firstn count xs) (firstn count ys)).
Proof.
  revert xs ys num.
  induction count as [|count IH]; intros xs ys num H0 Hmax.
  - simpl. lia.
  - destruct xs as [|x xs], ys as [|y ys];
      cbn [count_errors firstn differing]; try lia.
    destruct (x =? y).
    + rewrite IH by lia. lia.
    + rewrite wrap64_small by lia. rewrite IH by lia. lia.
Qed.

Lemma count_errors_store (count : nat) (data read_bytes ys : list Z)
    (num : Z) :
  List.length data = count ->
  count_errors count (store data read_bytes) ys num =
    count_errors count data ys num.
Proof.
  unfold store. generalize (skipn (List.length data) read_bytes) as junk.
  intros junk <-. revert ys num.
  induction data as [|x data IH]; intros [|y ys] num; simpl;
    try reflexivity.
  apply IH.
Qed.

End Differences.

(* ------------------------------------------------------------------ *)
(** ** Chunks *)

Section Chunks.

Lemma buffer_size_bytes_eq : buffer_size_bytes = 8192.
Proof. reflexivity. Qed.

Lemma chunk_sizes_step (bytes_left : Z) :
  0 < bytes_left ->
  chunk_sizes bytes_left =
    Z.min bytes_left buffer_size_bytes ::
    chunk_sizes (bytes_left - Z.min bytes_left buffer_size_bytes).
Proof.
  intros Hpos. unfold chunk_sizes. rewrite buffer_size_bytes_eq.
  destruct (Z_lt_ge_dec bytes_left 8192) as [Hlt | Hge].
  - rewrite Z.min_l, Z.sub_diag by lia.
    rewrite Z.div_small, Z.mod_small by lia.
    change (0 / 8192) with 0. change (0 mod 8192) with 0.
    destruct (bytes_left =? 0) eqn:H0; [lia|]. reflexivity.
  - rewrite Z.min_r by lia.
    assert (Hd : bytes_left / 8192 = (bytes_left - 8192) / 8192 + 1).
    { replace bytes_left with ((bytes_left - 8192) + 1 * 8192) at 1 by lia.
      apply Z.div_add. lia. }
    assert (Hm : bytes_left mod 8192 = (bytes_left - 8192) mod 8192).
    { replace bytes_left with ((bytes_left - 8192) + 1 * 8192) at 1 by lia.
      apply Z.mod_add. lia. }
    rewrite Hd, Hm.
    pose proof (Z.div_pos (bytes_left - 8192) 8192).
    replace (Z.to_nat ((bytes_left - 8192) / 8192 + 1))
      with (S (Z.to_nat ((bytes_left - 8192) / 8192))) by lia.
    reflexivity.
Qed.

Lemma sum_repeat (c a : Z) (n : nat) :
  fold_right Z.add a (repeat c n) = c * Z.of_nat n + a.
Proof. induction n as [|n IH]; simpl repeat; simpl fold_right; lia. Qed.

Lemma chunk_sizes_sum (size : Z) :
  0 <= size -> fold_right Z.add 0 (chunk_sizes size) = size.
Proof.
  intros Hsize. unfold chunk_sizes. rewrite buffer_size_bytes_eq.
  rewrite fold_right_app.
  pose proof (Z.div_mod size 8192). pose proof (Z.div_pos size 8192).
  destruct (size mod 8192 =? 0) eqn:Hm; simpl fold_right.
  - apply Z.eqb_eq in Hm. rewrite sum_repeat. lia.
  - rewrite sum_repeat. lia.
Qed.

End Chunks.

(* ------------------------------------------------------------------ *)
(** ** Sequencing *)

Section Sequencing.

Lemma bind_emit {B} (e : event) (k : unit -> prog B) :
  bind (emit e) k = (e :: fst (k tt), snd (k tt)).
Proof. unfold bind, emit. now destruct (k tt). Qed.

Lemma bind_fail_if {B} (failed : bool) (d : diagnostic)
    (k : unit -> prog B) :
  bind (fail_if failed d) k =
    if failed then ([Cerr d], Return 1) else k tt.
Proof. unfold bind, fail_if, ret. destruct failed; now destruct (k tt). Qed.

Lemma status_continues (line : float -> report) (size bytes_left : Z) :
  snd (status line size bytes_left) = Continue tt.
Proof. unfold status. now destruct (_ || _). Qed.

Lemma bind_status {B} (line : float -> report) (size bytes_left : Z)
    (k : unit -> prog B) :
  bind (status line size bytes_left) k =
    (fst (status line size bytes_left) ++ fst (k tt), snd (k tt)).
Proof.
  unfold bind. pose proof (status_continues line size bytes_left) as H.
  destruct (status line size bytes_left) as [evs r]. simpl in *. subst r.
  now destruct (k tt).
Qed.

Lemma bind_emit_after {B} (e : event) (k : unit -> prog B) :
  bind (emit e) k = after [e] (k tt).
Proof. apply bind_emit. Qed.

Lemma bind_pair {A B} (p : prog A) (k : A -> prog B) :
  bind p k =
    match snd p with
    | Continue x => (fst p ++ fst (k x), snd (k x))
    | Return status => (fst p, Return status)
    end.
Proof. unfold bind. destruct p as [evs [x|status]]; simpl; [|reflexivity].
  now destruct (k x). Qed.

End Sequencing.

Section Loops.

Context {E : Engine}.
Variable o : os.

Lemma write_loop_done (size bytes_left : Z) (prng : engine_state)
    (k : nat) (file : list Z) :
  bytes_left <= 0 -> write_loop o size bytes_left prng k file = ret file.
Proof.
  intros H. rewrite write_loop_equation_1.
  destruct (Z_gt_dec bytes_left 0); [lia | reflexivity].
Qed.

Lemma write_loop_step (size bytes_left : Z) (prng : engine_state)
    (k : nat) (file : list Z) :
  0 < bytes_left ->
  write_loop o size bytes_left prng k file =
    let n := Z.min bytes_left buffer_size_bytes in
    let data := firstn (Z.to_nat n) (as_bytes (fst (fill_buffer prng))) in
    let ret_n := fwrite o k n in
    if ret_n <? n then ([Fwrite data ret_n; Cerr failed_write], Return 1)
    else
      let rest := write_loop o size (bytes_left - n)
                    (snd (fill_buffer prng)) (S k)
                    (file ++ firstn (Z.to_nat ret_n) data) in
      (Fwrite data ret_n :: fst (status Writing size (bytes_left - n))
         ++ fst rest, snd rest).
Proof.
  intros H. rewrite write_loop_equation_1.
  destruct (Z_gt_dec bytes_left 0); [|lia].
  cbn [write_loop_unfold_clause_1]. cbv zeta.
  rewrite bind_emit, bind_fail_if.
  destruct (_ <? _); [reflexivity|].
  now rewrite bind_status.
Qed.

Lemma read_loop_done (size bytes_left : Z) (prng : engine_state)
    (k : nat) (unread read_bytes : list Z) (num_errors : Z) :
  bytes_left <= 0 ->
  read_loop o size bytes_left prng k unread read_bytes num_errors =
    ret num_errors.
Proof.
  intros H. rewrite read_loop_equation_1.
  destruct (Z_gt_dec bytes_left 0); [lia | reflexivity].
Qed.

Lemma read_loop_step (size bytes_left : Z) (prng : engine_state)
    (k : nat) (unread read_bytes : list Z) (num_errors : Z) :
  0 < bytes_left ->
  read_loop o size bytes_left prng k unread read_bytes num_errors =
    let n := Z.min bytes_left buffer_size_bytes in
    let data := fread o k unread n in
    if Z.of_nat (List.length data) <? n
    then ([Fread n data; Cerr failed_read], Return 1)
    else
      let rest := read_loop o size (bytes_left - n)
                    (snd (fill_buffer prng)) (S k)
                    (skipn (List.length data) unread)
                    (store data read_bytes)
                    (count_errors (Z.to_nat n) (store data read_bytes)
                       (as_bytes (fst (fill_buffer prng))) num_errors) in
      (Fread n data :: fst (status Reading size (bytes_left - n))
         ++ fst rest, snd rest).
Proof.
  intros H. rewrite read_loop_equation_1.
  destruct (Z_gt_dec bytes_left 0); [|lia].
  cbn [read_loop_unfold_clause_1]. cbv zeta.
  rewrite bind_emit, bind_fail_if.
  destruct (_ <? _); [reflexivity|].
  now rewrite bind_status.
Qed.

End Loops.

Section TraceFacts.

Lemma written_app (evs evs' : list event) :
  written (evs ++ evs') = written evs ++ written evs'.
Proof. apply flat_map_app. Qed.

Lemma read_back_app (evs evs' : list event) :
  read_back (evs ++ evs') = read_back evs ++ read_back evs'.
Proof. apply flat_map_app. Qed.

Lemma fwrite_calls_app (evs evs' : list event) :
  fwrite_calls (evs ++ evs') = fwrite_calls evs ++ fwrite_calls evs'.
Proof. apply flat_map_app. Qed.

Lemma fread_calls_app (evs evs' : list event) :
  fread_calls (evs ++ evs') = fread_calls evs ++ fread_calls evs'.
Proof. apply flat_map_app. Qed.

Lemma final_report_app (evs evs' : list event) :
  final_report (evs ++ evs') =
    match final_report evs with
    | Some r => Some r
    | None => final_report evs'
    end.
Proof.
  induction evs as [|e evs IH]; [reflexivity|].
  destruct e as [d|[]| | | | | | |]; simpl; auto.
Qed.

(** The status line of the write loop carries no data. *)
Lemma status_writing (size bytes_left : Z) :
  let evs := fst (status Writing size bytes_left) in
  forallb write_event evs = true /\ written evs = [] /\
  fwrite_calls evs = [].
Proof. unfold status. destruct (_ || _); simpl; auto. Qed.

Lemma status_reading (size bytes_left : Z) :
  let evs := fst (status Reading size bytes_left) in
  forallb read_event evs = true /\ read_back evs = [] /\
  fread_calls evs = [].
Proof. unfold status. destruct (_ || _); simpl; auto. Qed.

(** What the events of the write loop cannot be taken for. *)
Lemma write_events_inert (evs : list event) :
  forallb write_event evs = true ->
  read_back evs = [] /\ fread_calls evs = [] /\ final_report evs = None /\
  forallb (fun e => negb (is_reopen e)) evs = true.
Proof.
  induction evs as [|e evs IH]; [repeat split; reflexivity|].
  destruct e as [d|[]| | | | | | |]; simpl; try discriminate; auto.
Qed.

Lemma read_events_inert (evs : list event) :
  forallb read_event evs = true ->
  written evs = [] /\ fwrite_calls evs = [] /\ final_report evs = None /\
  forallb (fun e => negb (is_reopen e)) evs = true.
Proof.
  induction evs as [|e evs IH]; [repeat split; reflexivity|].
  destruct e as [d|[]| | | | | | |]; simpl; try discriminate; auto.
Qed.

End TraceFacts.

Section LoopFacts.

Context {E : Engine}.
Variable o : os.

Lemma fill_buffer_bytes (prng : engine_state) :
  List.length (as_bytes (fst (fill_buffer prng))) =
    Z.to_nat buffer_size_bytes.
Proof.
  unfold fill_buffer. rewrite as_bytes_length, generate_length.
  reflexivity.
Qed.

(** The part of the stream that one pass of a loop handles. *)
Lemma stream_bytes_pass (prng : engine_state) (bytes_left : Z) :
  0 < bytes_left ->
  stream_bytes prng (Z.to_nat bytes_left) =
    firstn (Z.to_nat (Z.min bytes_left buffer_size_bytes))
      (as_bytes (fst (fill_buffer prng)))
    ++ stream_bytes (snd (fill_buffer prng))
         (Z.to_nat (bytes_left - Z.min bytes_left buffer_size_bytes)).
Proof.
  intros Hpos. rewrite (stream_bytes_chunk buffer_size).
  unfold fill_buffer. rewrite buffer_size_bytes_eq.
  replace (8 * buffer_size)%nat with (Z.to_nat 8192) by reflexivity.
  f_equal; f_equal; lia.
Qed.

(** The write loop.  If it finishes, it made the calls of [chunk_sizes],
    each taken in full, and the file received the stream of the generator;
    otherwise a call of [fwrite] fell short and 1 is returned. *)
Lemma write_loop_spec (bytes_left : Z) :
  0 <= bytes_left ->
  forall (size : Z) (prng : engine_state) (k : nat) (file : list Z),
  let p := write_loop o size bytes_left prng k file in
  match snd p with
  | Continue file' =>
      forallb write_event (fst p) = true /\
      file' = file ++ written (fst p) /\
      written (fst p) = stream_bytes prng (Z.to_nat bytes_left) /\
      fwrite_calls (fst p) = map (fun n => (n, n)) (chunk_sizes bytes_left)
  | Return status =>
      status = 1 /\
      (exists w, fst p = w ++ [Cerr failed_write] /\
                 forallb write_event w = true) /\
      (exists j, fwrite_room o j < buffer_size_bytes)
  end.
Proof.
  intros Hbl. pattern bytes_left. apply Zlt_0_ind; [|assumption].
  clear bytes_left Hbl. intros bl IH Hbl size prng k file.
  destruct (Z.eq_dec bl 0) as [-> | Hne].
  - rewrite write_loop_done by lia. simpl.
    rewrite app_nil_r. auto.
  - rewrite write_loop_step by lia. cbv zeta.
    set (n := Z.min bl buffer_size_bytes).
    set (data := firstn (Z.to_nat n) (as_bytes (fst (fill_buffer prng)))).
    assert (Hn : 0 < n <= bl) by (subst n; rewrite buffer_size_bytes_eq; lia).
    assert (Hdata : Z.of_nat (List.length data) = n).
    { subst data. rewrite length_firstn, fill_buffer_bytes.
      subst n. rewrite buffer_size_bytes_eq. lia. }
    destruct (fwrite o k n <? n) eqn:Hshort.
    + simpl. split; [reflexivity|]. split.
      * exists [Fwrite data (fwrite o k n)]. split; reflexivity.
      * exists k. apply Z.ltb_lt in Hshort. unfold fwrite in Hshort.
        subst n. lia.
    + assert (Hret : fwrite o k n = n)
        by (apply Z.ltb_ge in Hshort; unfold fwrite in *; lia).
      rewrite Hret.
      specialize (IH (bl - n) ltac:(lia) size (snd (fill_buffer prng)) (S k)
                     (file ++ firstn (Z.to_nat n) data)).
      cbv zeta in IH.
      destruct (write_loop o size (bl - n) (snd (fill_buffer prng)) (S k)
                  (file ++ firstn (Z.to_nat n) data)) as [evs r].
      destruct (status_writing size (bl - n)) as (Hs1 & Hs2 & Hs3).
      cbn [fst snd] in *. destruct r as [file' | status].
      * destruct IH as (Hev & Hfile & Hwr & Hcalls).
        assert (Hfirst : firstn (Z.to_nat n) data = data)
          by (apply firstn_all2; lia).
        repeat split.
        -- cbn [forallb write_event]. rewrite forallb_app, Hs1, Hev.
           reflexivity.
        -- cbn [written flat_map]. fold (written (fst (status Writing size (bl - n)) ++ evs)).
           rewrite written_app, Hs2, Hfile, Hfirst. cbn [app].
           now rewrite <- app_assoc.
        -- cbn [written flat_map]. fold (written (fst (status Writing size (bl - n)) ++ evs)).
           rewrite written_app, Hs2, Hwr, Hfirst. cbn [app].
           rewrite (stream_bytes_pass prng) by lia. reflexivity.
        -- cbn [fwrite_calls flat_map].
           fold (fwrite_calls (fst (status Writing size (bl - n)) ++ evs)).
           rewrite fwrite_calls_app, Hs3, Hcalls, Hdata. cbn [app].
           rewrite (chunk_sizes_step bl) by lia. reflexivity.
      * destruct IH as (-> & (w & -> & Hw) & Hroom).
        split; [reflexivity|]. split; [|assumption].
        exists (Fwrite data n :: fst (status Writing size (bl - n)) ++ w).
        split.
        -- now rewrite app_comm_cons, app_assoc.
        -- cbn [forallb write_event]. rewrite forallb_app, Hs1, Hw.
           reflexivity.
Qed.

Lemma firstn_add (a b : nat) (l : list Z) :
  firstn (a + b) l = firstn a l ++ firstn b (skipn a l).
Proof.
  revert l. induction a as [|a IH]; intros [|x l]; simpl;
    try reflexivity.
  - now rewrite firstn_nil.
  - now rewrite IH.
Qed.

(** The read loop.  If it finishes, it made the calls of [chunk_sizes],
    each answered in full, it read the first [bytes_left] bytes of the
    file, and it added to the counter the number of those bytes that
    differ from the stream of the generator; otherwise a call of [fread]
    fell short and 1 is returned. *)
Lemma read_loop_spec (bytes_left : Z) :
  0 <= bytes_left ->
  forall (size : Z) (prng : engine_state) (k : nat)
         (unread read_bytes : list Z) (num : Z),
  0 <= num -> num + bytes_left <= UINT64_MAX ->
  let p := read_loop o size bytes_left prng k unread read_bytes num in
  match snd p with
  | Continue num' =>
      forallb read_event (fst p) = true /\
      read_back (fst p) = firstn (Z.to_nat bytes_left) unread /\
      List.length (read_back (fst p)) = Z.to_nat bytes_left /\
      num' = num + Z.of_nat (differing (read_back (fst p))
                               (stream_bytes prng (Z.to_nat bytes_left))) /\
      fread_calls (fst p) = map (fun n => (n, n)) (chunk_sizes bytes_left)
  | Return status =>
      status = 1 /\
      (exists w, fst p = w ++ [Cerr failed_read] /\
                 forallb read_event w = true) /\
      ((exists j, fread_avail o j < buffer_size_bytes) \/
       Z.of_nat (List.length unread) < bytes_left)
  end.
Proof.
  intros Hbl. pattern bytes_left. apply Zlt_0_ind; [|assumption].
  clear bytes_left Hbl.
  intros bl IH Hbl size prng k unread read_bytes num Hnum Hmax.
  destruct (Z.eq_dec bl 0) as [-> | Hne].
  - rewrite read_loop_done by lia. simpl.
    rewrite Z.add_0_r. auto.
  - rewrite read_loop_step by lia. cbv zeta.
    set (n := Z.min bl buffer_size_bytes).
    set (data := fread o k unread n).
    assert (Hn : 0 < n <= bl /\ n <= buffer_size_bytes)
      by (subst n; rewrite buffer_size_bytes_eq; lia).
    assert (Hlen : (List.length data <= Z.to_nat n)%nat /\
                   (List.length data <= List.length unread)%nat).
    { subst data. unfold fread. rewrite length_firstn. lia. }
    destruct (Z.of_nat (List.length data) <? n) eqn:Hshort.
    + simpl. split; [reflexivity|]. split.
      * exists [Fread n data]. split; reflexivity.
      * apply Z.ltb_lt in Hshort. subst data. unfold fread in Hshort.
        rewrite length_firstn in Hshort.
        destruct (Z_lt_ge_dec (fread_avail o k) buffer_size_bytes);
          [left; now exists k | right; lia].
    + apply Z.ltb_ge in Hshort.
      assert (Hdata : data = firstn (Z.to_nat n) unread).
      { subst data. unfold fread in *. rewrite length_firstn in *.
        f_equal. lia. }
      assert (Hlen' : List.length data = Z.to_nat n) by lia.
      rewrite count_errors_store by assumption.
      rewrite count_errors_differing by lia.
      rewrite (firstn_all2 data) by lia.
      set (buf := firstn (Z.to_nat n) (as_bytes (fst (fill_buffer prng)))).
      assert (Hbuf : List.length buf = Z.to_nat n).
      { subst buf. rewrite length_firstn, fill_buffer_bytes. lia. }
      pose proof (differing_le data buf) as Hle.
      specialize (IH (bl - n) ltac:(lia) size (snd (fill_buffer prng)) (S k)
                     (skipn (List.length data) unread)
                     (store data read_bytes)
                     (num + Z.of_nat (differing data buf))
                     ltac:(lia) ltac:(lia)).
      cbv zeta in IH.
      destruct (read_loop o size (bl - n) (snd (fill_buffer prng)) (S k)
                  (skipn (List.length data) unread) (store data read_bytes)
                  (num + Z.of_nat (differing data buf))) as [evs r].
      destruct (status_reading size (bl - n)) as (Hs1 & Hs2 & Hs3).
      cbn [fst snd] in *.
      assert (Hrb : read_back
                      (Fread n data :: fst (status Reading size (bl - n)) ++ evs)
                    = data ++ read_back evs).
      { cbn [read_back flat_map].
        fold (read_back (fst (status Reading size (bl - n)) ++ evs)).
        now rewrite read_back_app, Hs2. }
      destruct r as [num' | status].
      * destruct IH as (Hev & Hread & Hrlen & Hnum' & Hcalls).
        rewrite Hrb. repeat split.
        -- cbn [forallb read_event]. rewrite forallb_app, Hs1, Hev.
           reflexivity.
        -- rewrite Hread, Hlen', Hdata.
           replace (Z.to_nat bl) with (Z.to_nat n + Z.to_nat (bl - n))%nat
             by lia.
           now rewrite firstn_add.
        -- rewrite length_app, Hrlen. lia.
        -- rewrite (stream_bytes_pass prng) by lia. fold n. fold buf.
           rewrite differing_app by lia. lia.
        -- cbn [fread_calls flat_map].
           fold (fread_calls (fst (status Reading size (bl - n)) ++ evs)).
           rewrite fread_calls_app, Hs3, Hcalls. cbn [app].
           rewrite (chunk_sizes_step bl) by lia. fold n.
           cbn [map]. do 2 f_equal. lia.
      * destruct IH as (-> & (w & -> & Hw) & Hcause).
        split; [reflexivity|]. split.
        -- exists (Fread n data :: fst (status Reading size (bl - n)) ++ w).
           split.
           ++ now rewrite app_comm_cons, app_assoc.
           ++ cbn [forallb read_event]. rewrite forallb_app, Hs1, Hw.
              reflexivity.
        -- destruct Hcause as [Hj | Hshortfile]; [now left | right].
           rewrite length_skipn in Hshortfile. lia.
Qed.

End LoopFacts.

Section Stages.

Context {E : Engine}.
Variable o : os.

(** Every run of lines 87-175 ends at one of the stages, with the trace
    and the status of that stage.  A run that ends at [st_done] wrote the
    reference stream in the chunks of [chunk_sizes], read the first [size]
    bytes of the file back in the same chunks, and counted the bytes that
    differ from the reference stream. *)
Lemma test_file_stages (seed size : Z) (path : string) :
  0 <= size <= UINT64_MAX ->
  exists (s : stage) (w rd : list event) (num : Z),
    test_file o seed size path =
      (trace_of path size s w rd num, outcome_of s) /\
    forallb write_event w = true /\
    forallb read_event rd = true /\
    cause o path size (medium o (reference seed size)) s /\
    (s = st_done ->
     written w = reference seed size /\
     fwrite_calls w = map (fun n => (n, n)) (chunk_sizes size) /\
     read_back rd =
       firstn (Z.to_nat size) (medium o (reference seed size)) /\
     List.length (read_back rd) = Z.to_nat size /\
     num = Z.of_nat (differing (read_back rd) (reference seed size)) /\
     fread_calls rd = map (fun n => (n, n)) (chunk_sizes size)).
Proof.
  intros Hsize.
  remember (test_file o seed size path) as result eqn:Hres.
  unfold test_file in Hres. cbv zeta in Hres.
  rewrite (@bind_emit_after unit), (@bind_fail_if unit) in Hres.
  destruct (fopen_wb o path) eqn:Hwb; cbn [negb] in Hres.
  2:{ exists st_open_write, [], [], 0. subst result.
      repeat split; try discriminate. assumption. }
  pose proof (write_loop_spec o size (proj1 Hsize) size (engine_seed seed)
                0%nat []) as Hw.
  cbv zeta in Hw. rewrite bind_pair in Hres.
  destruct (write_loop o size size (engine_seed seed) 0 []) as [w [file|st]];
    cbn [fst snd] in *.
  2:{ destruct Hw as (-> & (w' & -> & Hw') & Hj).
      exists st_write, w', [], 0. subst result.
      repeat split; try discriminate; auto. }
  destruct Hw as (Hw & Hfile & Hwritten & Hwcalls). cbn [app] in Hfile.
  fold (reference seed size) in Hwritten.
  rewrite ?(@bind_emit_after unit), ?(@bind_fail_if unit) in Hres.
  destruct (fflush_ok o) eqn:Hflush; cbn [negb] in Hres.
  2:{ exists st_flush, w, [], 0. subst result.
      repeat split; try discriminate; auto. }
  rewrite ?(@bind_emit_after unit), ?(@bind_fail_if unit) in Hres.
  destruct (fileno_ok o) eqn:Hfileno; cbn [negb] in Hres.
  2:{ exists st_fileno, w, [], 0. subst result.
      repeat split; try discriminate; auto. }
  rewrite ?(@bind_emit_after unit), ?(@bind_fail_if unit) in Hres.
  destruct (fsync_ok o) eqn:Hsync; cbn [negb] in Hres.
  2:{ exists st_sync, w, [], 0. subst result.
      repeat split; try discriminate; auto. }
  rewrite ?(@bind_emit_after unit), ?(@bind_fail_if unit) in Hres.
  destruct (fclose_ok o) eqn:Hclose; cbn [negb] in Hres.
  2:{ exists st_close, w, [], 0. subst result.
      repeat split; try discriminate; auto. }
  rewrite ?(@bind_emit_after unit), ?(@bind_fail_if unit) in Hres.
  destruct (fopen_rb o path) eqn:Hrb; cbn [negb] in Hres.
  2:{ exists st_open_read, w, [], 0. subst result.
      repeat split; try discriminate; auto. }
  pose proof (read_loop_spec o size (proj1 Hsize) size (engine_seed seed)
                0%nat (medium o file) (as_bytes (repeat 0 buffer_size)) 0
                (Z.le_refl 0) ltac:(lia)) as Hr.
  cbv zeta in Hr. rewrite bind_pair in Hres.
  rewrite Hfile, Hwritten in *.
  destruct (read_loop o size size (engine_seed seed) 0
              (medium o (reference seed size))
              (as_bytes (repeat 0 buffer_size)) 0) as [rd [num|st]];
    cbn [fst snd] in *.
  2:{ destruct Hr as (-> & (rd' & -> & Hrd') & Hcause).
      exists st_read, w, rd', 0. subst result.
      repeat split; try discriminate; auto. }
  destruct Hr as (Hrd & Hread & Hrlen & Hnum & Hrcalls).
  fold (reference seed size) in Hnum.
  exists st_done, w, rd, num. subst result.
  unfold after. cbn [fst snd app emit].
  repeat split; auto.
Qed.

End Stages.

Section Traces.

(** The projections of a trace, stage by stage. *)
Variables (path : string) (size : Z) (w rd : list event) (num : Z).
Hypothesis Hw : forallb write_event w = true.
Hypothesis Hrd : forallb read_event rd = true.

Lemma final_report_trace_of (s : stage) :
  final_report (trace_of path size s w rd num) =
    match s with
    | st_done => Some (num, percent num size)
    | _ => None
    end.
Proof.
  destruct (write_events_inert w Hw) as (_ & _ & Hfw & _).
  destruct (read_events_inert rd Hrd) as (_ & _ & Hfr & _).
  destruct s; cbn [trace_of barrier final_report fold_right];
    fold (final_report w);
    rewrite ?final_report_app, ?Hfw; cbn [final_report fold_right app];
    rewrite ?final_report_app, ?Hfr; try reflexivity;
    fold (final_report (rd ++ [Cerr failed_read]));
    fold (final_report (rd ++ [Cout (ReadBytes size);
                                Cout (Found num (percent num size))]));
    rewrite ?final_report_app, ?Hfr; reflexivity.
Qed.

Lemma written_trace_of (s : stage) :
  written (trace_of path size s w rd num) =
    match s with
    | st_open_write => []
    | _ => written w
    end.
Proof.
  destruct (read_events_inert rd Hrd) as (Hwr & _).
  destruct s; cbn [trace_of barrier written flat_map app];
    fold written; rewrite ?written_app; cbn [written flat_map app];
    fold written; rewrite ?written_app, ?Hwr; cbn [written flat_map app];
    rewrite ?app_nil_r; reflexivity.
Qed.

Lemma fwrite_calls_trace_of (s : stage) :
  fwrite_calls (trace_of path size s w rd num) =
    match s with
    | st_open_write => []
    | _ => fwrite_calls w
    end.
Proof.
  destruct (read_events_inert rd Hrd) as (_ & Hwr & _).
  destruct s; cbn [trace_of barrier fwrite_calls flat_map app];
    fold fwrite_calls; rewrite ?fwrite_calls_app;
    cbn [fwrite_calls flat_map app];
    fold fwrite_calls; rewrite ?fwrite_calls_app, ?Hwr;
    cbn [fwrite_calls flat_map app];
    rewrite ?app_nil_r; reflexivity.
Qed.

Lemma read_back_trace_of (s : stage) :
  read_back (trace_of path size s w rd num) =
    match s with
    | st_read | st_done => read_back rd
    | _ => []
    end.
Proof.
  destruct (write_events_inert w Hw) as (Hrw & _).
  destruct s; cbn [trace_of barrier read_back flat_map app];
    fold read_back; rewrite ?read_back_app, ?Hrw;
    cbn [read_back flat_map app];
    fold read_back; rewrite ?read_back_app;
    cbn [read_back flat_map app];
    rewrite ?app_nil_r; reflexivity.
Qed.

Lemma fread_calls_trace_of (s : stage) :
  fread_calls (trace_of path size s w rd num) =
    match s with
    | st_read | st_done => fread_calls rd
    | _ => []
    end.
Proof.
  destruct (write_events_inert w Hw) as (_ & Hrw & _).
  destruct s; cbn [trace_of barrier fread_calls flat_map app];
    fold fread_calls; rewrite ?fread_calls_app, ?Hrw;
    cbn [fread_calls flat_map app];
    fold fread_calls; rewrite ?fread_calls_app;
    cbn [fread_calls flat_map app];
    rewrite ?app_nil_r; reflexivity.
Qed.

End Traces.

Section Arguments.

Lemma scan_digits_nonneg (s : string) (acc : Z) :
  0 <= acc -> 0 <= fst (scan_digits s acc).
Proof.
  revert acc. induction s as [|c s IH]; intros acc Hacc;
    cbn [scan_digits]; [assumption|].
  destruct (is_digit c) eqn:Hc; [|assumption].
  apply IH. unfold is_digit in Hc. apply andb_true_iff in Hc as [Hlo _].
  apply Z.leb_le in Hlo. unfold digit_value. lia.
Qed.

(** [from_chars] leaves a 64-bit value in [value]. *)
Lemma from_chars_range (sv : string) (value : Z) :
  0 <= value <= UINT64_MAX -> 0 <= snd (from_chars sv value) <= UINT64_MAX.
Proof.
  intros Hv. unfold from_chars.
  destruct (is_digit (deref sv)); [|assumption].
  pose proof (scan_digits_nonneg sv 0 (Z.le_refl 0)) as H0.
  destruct (scan_digits sv 0) as [v rest]. cbn [fst] in H0.
  destruct (v <=? UINT64_MAX) eqn:Hle; [|assumption].
  apply Z.leb_le in Hle. cbn [snd]. lia.
Qed.

Lemma wrap64_range (x : Z) : 0 <= wrap64 x <= UINT64_MAX.
Proof.
  unfold wrap64, UINT64_MAX. pose proof (Z.mod_pos_bound x two64).
  unfold two64 in *. lia.
Qed.

(** A size that parses is a 64-bit value. *)
Lemma parse_size_range (s : string) (size : Z) :
  parse_size s = Some size -> 0 <= size <= UINT64_MAX.
Proof.
  unfold parse_size.
  pose proof (from_chars_range (string_view s) 0) as Hr.
  destruct (from_chars (string_view s) 0) as [res v]. cbn [snd] in Hr.
  destruct (ec res); try discriminate.
  unfold apply_suffix, times_1024.
  repeat match goal with
         | |- context [if ?b then _ else _] => destruct b
         end; intros H; inversion H; subst;
    try apply wrap64_range.
  apply Hr. unfold UINT64_MAX, two64. lia.
Qed.

(** The arguments: either [main] returns 1 after a diagnostic about the
    arguments, or it goes on with a 64-bit size, having at most reported
    a seed that did not parse. *)
Lemma parse_args_cases (argv : list string) :
  match snd (parse_args argv) with
  | Return status =>
      status = 1 /\
      exists pre d, fst (parse_args argv) = pre ++ [Cerr d] /\
                    arg_failure d = true /\
                    forallb is_diagnostic pre = true
  | Continue (seed, size, path) =>
      0 <= size <= UINT64_MAX /\
      forallb is_diagnostic (fst (parse_args argv)) = true
  end.
Proof.
  unfold parse_args. cbv zeta.
  destruct (Z.of_nat (List.length argv) =? 3).
  - destruct (parse_size (nth 1 argv EmptyString)) as [size|] eqn:Hp.
    + cbn. split; [now apply parse_size_range in Hp | reflexivity].
    + cbn. split; [reflexivity|].
      exists [], (failed_parse_size (string_view (nth 1 argv EmptyString))).
      auto.
  - destruct (Z.of_nat (List.length argv) =? 4).
    + destruct (from_chars (string_view (nth 1 argv EmptyString))
                  default_seed) as [res seed].
      destruct (parse_size (nth 2 argv EmptyString)) as [size|] eqn:Hp.
      * apply parse_size_range in Hp. destruct (ec res); cbn; auto.
      * destruct (ec res); cbn; (split; [reflexivity|]).
        -- exists [],
             (failed_parse_size (string_view (nth 2 argv EmptyString))).
           auto.
        -- exists [Cerr (failed_parse_seed
                           (string_view (nth 1 argv EmptyString)))],
             (failed_parse_size (string_view (nth 2 argv EmptyString))).
           auto.
        -- exists [Cerr (failed_parse_seed
                           (string_view (nth 1 argv EmptyString)))],
             (failed_parse_size (string_view (nth 2 argv EmptyString))).
           auto.
    + cbn. split; [reflexivity|]. exists [], usage. auto.
Qed.

Context {E : Engine}.
Variable o : os.

(** [main] is the arguments, then lines 87-175. *)
Lemma main_decompose (argv : list string) :
  main o argv =
    match snd (parse_args argv) with
    | Return status => (fst (parse_args argv), status)
    | Continue (seed, size, path) =>
        (fst (parse_args argv) ++ fst (test_file o seed size path),
         match snd (test_file o seed size path) with
         | Continue _ => 0
         | Return status => status
         end)
    end.
Proof.
  unfold main. cbv zeta. rewrite bind_pair.
  destruct (snd (parse_args argv)) as [[[seed size] path]|status];
    reflexivity.
Qed.

(** Every run of [main] is a run of the arguments that stops, or one that
    goes on to a stage of lines 87-175. *)
Lemma main_stages (argv : list string) :
  (exists pre d,
      main o argv = (pre ++ [Cerr d], 1) /\ arg_failure d = true /\
      forallb is_diagnostic pre = true) \/
  (exists pre seed size path s w rd num,
      main o argv =
        (pre ++ trace_of path size s w rd num,
         match s with st_done => 0 | _ => 1 end) /\
      forallb is_diagnostic pre = true /\
      forallb write_event w = true /\ forallb read_event rd = true /\
      cause o path size (medium o (reference seed size)) s).
Proof.
  rewrite main_decompose. pose proof (parse_args_cases argv) as Hp.
  destruct (parse_args argv) as [pevs [[[seed size] path]|status]];
    cbn [fst snd] in *.
  - right. destruct Hp as [Hsize Hpre].
    destruct (test_file_stages o seed size path Hsize)
      as (s & w & rd & num & -> & Hw & Hrd & Hcause & _).
    exists pevs, seed, size, path, s, w, rd, num. cbn [fst snd].
    repeat split; auto. now destruct s.
  - left. destruct Hp as (-> & pre & d & -> & Hd & Hpre).
    now exists pre, d.
Qed.

End Arguments.

Section Runs.

Context {E : Engine}.
Variable o : os.
Variables (seed size : Z) (path : string).
Hypothesis Hsize : 0 <= size <= UINT64_MAX.

Lemma test_file_outcomes :
  (exists n, snd (test_file o seed size path) = Continue tt /\
             completed o seed size (fst (test_file o seed size path)) n) \/
  (snd (test_file o seed size path) = Return 1 /\
   final_report (fst (test_file o seed size path)) = None /\
   exists s, s <> st_done /\
             cause o path size (medium o (reference seed size)) s).
Proof.
  destruct (test_file_stages o seed size path Hsize)
    as (s & w & rd & num & -> & Hw & Hrd & Hcause & Hdone).
  cbn [fst snd].
  destruct (stage_eq_dec s st_done) as [-> | Hne].
  - left. exists num. destruct (Hdone eq_refl) as (H1 & H2 & H3 & H4 & H5 & H6).
    split; [reflexivity|]. unfold completed.
    rewrite final_report_trace_of, written_trace_of, fwrite_calls_trace_of,
      read_back_trace_of, fread_calls_trace_of by assumption.
    repeat split; assumption.
  - right. rewrite final_report_trace_of by assumption.
    repeat split; try (now destruct s). now exists s.
Qed.

(** A run that prints the final report reached the end of [main]. *)
Lemma test_file_reported (n : Z) :
  mismatch_counter (fst (test_file o seed size path)) = Some n ->
  snd (test_file o seed size path) = Continue tt /\
  completed o seed size (fst (test_file o seed size path)) n.
Proof.
  unfold mismatch_counter.
  destruct test_file_outcomes as [(n' & Hsnd & Hc) | (_ & Hnone & _)].
  - pose proof Hc as (Hrep & _). rewrite Hrep. cbn.
    intros [= <-]. now split.
  - now rewrite Hnone.
Qed.

(** In an environment without faults, on a file that is long enough, the
    run reaches the end of [main]. *)
Lemma test_file_reliable :
  reliable o path ->
  size <= Z.of_nat (List.length (medium o (reference seed size))) ->
  exists n, snd (test_file o seed size path) = Continue tt /\
            completed o seed size (fst (test_file o seed size path)) n.
Proof.
  intros (Hwb & Hroom & Hfl & Hfn & Hsy & Hcl & Hrb & Havail) Hlen.
  destruct test_file_outcomes as [Hdone | (_ & _ & s & Hne & Hcause)];
    [assumption|].
  exfalso. destruct s; cbn [cause] in Hcause; try congruence;
    try (destruct Hcause as (? & ?); intuition congruence).
  - destruct Hcause as (_ & j & Hj). specialize (Hroom j). lia.
  - destruct Hcause as (_ & _ & _ & _ & _ & _ & [[j Hj] | Hshort]).
    + specialize (Havail j). lia.
    + lia.
Qed.

End Runs.

Lemma ideal_os_reliable (path : string) : reliable ideal_os path.
Proof. repeat split; intros; cbn; lia. Qed.

(* ------------------------------------------------------------------ *)
(** ** The write and read-back phases *)

(** C1. Round trip.  For every seed and every size, whatever the relation
    of the size to the 8192 bytes of the buffer: if the run prints its final
    report and the bytes read back are the bytes that were written, the
    mismatch counter is 0.  In an environment without faults that returns
    the file as written, the run does print the report, what was written is
    the reference stream of the seed, and what is read back is the same. *)
Theorem round_trip {E : Engine} (o : os) (seed size : Z) (path : string) :
  0 <= size <= UINT64_MAX ->
  (forall n,
     mismatch_counter (fst (test_file o seed size path)) = Some n ->
     read_back (fst (test_file o seed size path)) =
       written (fst (test_file o seed size path)) ->
     n = 0) /\
  (reliable o path -> (forall file, medium o file = file) ->
   mismatch_counter (fst (test_file o seed size path)) = Some 0 /\
   written (fst (test_file o seed size path)) = reference seed size /\
   read_back (fst (test_file o seed size path)) = reference seed size).
Proof.
  intros Hsize. split.
  - intros n Hn Hsame.
    destruct (test_file_reported o seed size path Hsize n Hn)
      as (_ & _ & Hwr & _ & _ & _ & Hnum & _).
    rewrite Hnum, Hsame, Hwr, differing_same. reflexivity.
  - intros Hrel Hmedium.
    assert (Hlen : List.length (reference seed size) = Z.to_nat size)
      by apply stream_bytes_length.
    destruct (test_file_reliable o seed size path Hsize Hrel)
      as (n & _ & Hrep & Hwr & _ & Hrd & _ & Hnum & _).
    { rewrite Hmedium, Hlen. lia. }
    rewrite Hmedium, firstn_all2 in Hrd by lia.
    rewrite Hrd, differing_same in Hnum. subst n.
    unfold mismatch_counter. rewrite Hrep. auto.
Qed.

Lemma round_trip_witness :
  mismatch_counter sample_run = Some 0 /\
  written sample_run = reference 42 10000 /\
  read_back sample_run = reference 42 10000.
Proof.
  apply (round_trip (E := Prng) ideal_os 42 10000 "scratch").
  - vm_compute. split; discriminate.
  - apply ideal_os_reliable.
  - reflexivity.
Defined.

(** C7. Exhaustive verification.  When the run prints its final report,
    the bytes read back are the first [size] bytes of the file, and the
    mismatch counter is the number of positions below [size] at which the
    byte read back differs from the byte of the reference stream: every
    difference counts, not only the first.  In particular a byte of the
    file that is not the byte that was written makes the counter at least
    1. *)
Theorem exhaustive_count {E : Engine} (o : os) (seed size : Z)
    (path : string) (n : Z) :
  0 <= size <= UINT64_MAX ->
  mismatch_counter (fst (test_file o seed size path)) = Some n ->
  read_back (fst (test_file o seed size path)) =
    firstn (Z.to_nat size)
      (medium o (written (fst (test_file o seed size path)))) /\
  n = Z.of_nat
        (List.length
           (mismatch_positions (read_back (fst (test_file o seed size path)))
              (reference seed size) (Z.to_nat size))) /\
  (forall p, (p < Z.to_nat size)%nat ->
     nth p (medium o (written (fst (test_file o seed size path)))) 0 <>
     nth p (written (fst (test_file o seed size path))) 0 ->
     1 <= n).
Proof.
  intros Hsize Hn.
  destruct (test_file_reported o seed size path Hsize n Hn)
    as (_ & _ & Hwr & _ & Hrd & Hlen & Hnum & _).
  assert (Href : List.length (reference seed size) = Z.to_nat size)
    by apply stream_bytes_length.
  rewrite Hwr. split; [assumption|]. split.
  - rewrite Hnum, differing_positions by lia. now rewrite Hlen.
  - intros p Hp Hflip.
    assert (Hnth : nth p (read_back (fst (test_file o seed size path))) 0 =
                   nth p (medium o (reference seed size)) 0).
    { rewrite Hrd, nth_firstn.
      destruct (Nat.ltb_spec p (Z.to_nat size)); [reflexivity | lia]. }
    pose proof (differing_pos
                  (read_back (fst (test_file o seed size path)))
                  (reference seed size) p) as Hpos.
    rewrite Hnum. rewrite Hnth in Hpos. lia.
Qed.

Lemma exhaustive_count_witness :
  read_back corrupted_run =
    firstn (Z.to_nat 10000)
      (corrupt_at (Z.to_nat 9000) (written corrupted_run)) /\
  1 = Z.of_nat
        (List.length
           (mismatch_positions (read_back corrupted_run)
              (reference 42 10000) (Z.to_nat 10000))) /\
  (forall p, (p < Z.to_nat 10000)%nat ->
     nth p (corrupt_at (Z.to_nat 9000) (written corrupted_run)) 0 <>
     nth p (written corrupted_run) 0 ->
     1 <= 1).
Proof.
  apply (exhaustive_count (E := Prng) (corrupting_os (Z.to_nat 9000)) 42 10000
           "scratch" 1).
  - vm_compute. split; discriminate.
  - vm_compute. reflexivity.
Defined.

(** C8. A size that is not a multiple of the buffer.  When the run reaches
    the end of [main] with such a size, the calls of [fwrite] ask for 8192
    bytes each except the last, which asks for the [size mod 8192] bytes
    that remain, and each is taken in full; the calls of [fread] ask for and
    obtain the same counts; [size] bytes are written and [size] bytes are
    read back in all, and the counter is the number of differences among
    exactly these [size] positions. *)
Theorem partial_final_chunk {E : Engine} (o : os) (seed size : Z)
    (path : string) :
  0 <= size <= UINT64_MAX ->
  size mod buffer_size_bytes <> 0 ->
  snd (test_file o seed size path) = Continue tt ->
  let chunks :=
    repeat buffer_size_bytes (Z.to_nat (size / buffer_size_bytes)) ++
    [size mod buffer_size_bytes] in
  fwrite_calls (fst (test_file o seed size path)) =
    map (fun n => (n, n)) chunks /\
  fread_calls (fst (test_file o seed size path)) =
    map (fun n => (n, n)) chunks /\
  0 < size mod buffer_size_bytes < buffer_size_bytes /\
  fold_right Z.add 0 chunks = size /\
  Z.of_nat (List.length (written (fst (test_file o seed size path)))) =
    size /\
  Z.of_nat (List.length (read_back (fst (test_file o seed size path)))) =
    size /\
  mismatch_counter (fst (test_file o seed size path)) =
    Some (Z.of_nat
            (List.length
               (mismatch_positions
                  (read_back (fst (test_file o seed size path)))
                  (reference seed size) (Z.to_nat size)))).
Proof.
  intros Hsize Hmod Hdone chunks.
  assert (Hchunks : chunk_sizes size = chunks).
  { unfold chunk_sizes. apply Z.eqb_neq in Hmod. now rewrite Hmod. }
  assert (Href : List.length (reference seed size) = Z.to_nat size)
    by apply stream_bytes_length.
  destruct (test_file_outcomes o seed size path Hsize)
    as [(n & _ & Hrep & Hwr & Hwc & Hrd & Hlen & Hnum & Hrc) | (Hret & _)];
    [|congruence].
  rewrite <- Hchunks. repeat split; try assumption.
  - pose proof (Z.mod_pos_bound size buffer_size_bytes).
    rewrite buffer_size_bytes_eq in *. lia.
  - pose proof (Z.mod_pos_bound size buffer_size_bytes).
    rewrite buffer_size_bytes_eq in *. lia.
  - apply chunk_sizes_sum. lia.
  - rewrite Hwr, Href. lia.
  - rewrite Hlen. lia.
  - unfold mismatch_counter. rewrite Hrep. cbn [option_map fst].
    rewrite Hnum, differing_positions by lia. now rewrite Hlen.
Qed.

Lemma partial_final_chunk_witness :
  fwrite_calls sample_run = [(8192, 8192); (1808, 1808)] /\
  fread_calls sample_run = [(8192, 8192); (1808, 1808)] /\
  0 < 1808 < 8192 /\
  8192 + (1808 + 0) = 10000 /\
  Z.of_nat (List.length (written sample_run)) = 10000 /\
  Z.of_nat (List.length (read_back sample_run)) = 10000 /\
  mismatch_counter sample_run =
    Some (Z.of_nat
            (List.length
               (mismatch_positions (read_back sample_run)
                  (reference 42 10000) (Z.to_nat 10000)))).
Proof.
  apply (partial_final_chunk (E := Prng) ideal_os 42 10000 "scratch").
  - vm_compute. split; discriminate.
  - vm_compute. discriminate.
  - vm_compute. reflexivity.
Defined.

(* ------------------------------------------------------------------ *)
(** ** Exit status and the durability barrier *)

Section WholeRuns.

Lemma diagnostics_inert (evs : list event) :
  forallb is_diagnostic evs = true ->
  final_report evs = None /\ barrier_calls evs = [] /\
  fwrite_calls evs = [] /\ fread_calls evs = [] /\
  forallb (fun e => negb (is_reopen e)) evs = true.
Proof.
  induction evs as [|e evs IH]; [repeat split; reflexivity|].
  destruct e; simpl; try discriminate; auto.
Qed.

Lemma write_events_no_barrier (evs : list event) :
  forallb write_event evs = true -> barrier_calls evs = [].
Proof.
  induction evs as [|e evs IH]; [reflexivity|].
  destruct e as [d|[]| | | | | | |]; simpl; try discriminate; auto.
Qed.

Lemma read_events_no_barrier (evs : list event) :
  forallb read_event evs = true -> barrier_calls evs = [].
Proof.
  induction evs as [|e evs IH]; [reflexivity|].
  destruct e as [d|[]| | | | | | |]; simpl; try discriminate; auto.
Qed.

Lemma barrier_calls_app (evs evs' : list event) :
  barrier_calls (evs ++ evs') = barrier_calls evs ++ barrier_calls evs'.
Proof. apply flat_map_app. Qed.

(** A trace holds at most one event of a kind that occurs neither before
    nor after one of its events. *)
Lemma split_unique (P : event -> bool) (l1 l2 pre post : list event)
    (e e' : event) :
  forallb (fun x => negb (P x)) l1 = true ->
  forallb (fun x => negb (P x)) l2 = true ->
  l1 ++ e :: l2 = pre ++ e' :: post -> P e' = true ->
  pre = l1 /\ e' = e /\ post = l2.
Proof.
  revert pre. induction l1 as [|a l1 IH]; intros [|x pre] H1 H2 Heq He';
    cbn [app forallb] in *.
  - now injection Heq as -> ->.
  - injection Heq as -> ->. rewrite forallb_app in H2. cbn in H2.
    rewrite He' in H2. cbn in H2. now rewrite andb_false_r in H2.
  - injection Heq as -> _. rewrite He' in H1. discriminate H1.
  - injection Heq as -> Heq. apply andb_true_iff in H1 as [_ H1].
    destruct (IH pre H1 H2 Heq He') as (-> & -> & ->). auto.
Qed.

Lemma no_split (P : event -> bool) (l pre post : list event) (e : event) :
  forallb (fun x => negb (P x)) l = true ->
  l = pre ++ e :: post -> P e = true -> False.
Proof.
  intros Hl -> He. rewrite forallb_app in Hl. cbn in Hl.
  rewrite He in Hl. cbn in Hl. now rewrite andb_false_r in Hl.
Qed.

Variables (path : string) (size : Z) (w rd : list event) (num : Z).
Hypothesis Hw : forallb write_event w = true.
Hypothesis Hrd : forallb read_event rd = true.

(** A run that stops before the end of [main] stops on the diagnostic of
    a call that failed. *)
Lemma trace_of_failure (s : stage) :
  s <> st_done ->
  exists l d, trace_of path size s w rd num = l ++ [Cerr d] /\
              io_failure d = true.
Proof.
  intros Hs. destruct s; [| | | | | | | |congruence]; cbn [trace_of].
  - now exists [Fopen path mode_wb false], failed_open_write.
  - now exists (Fopen path mode_wb true :: w), failed_write.
  - exists (Fopen path mode_wb true :: w ++ [Fflush false]), failed_flush.
    cbn [app]. now rewrite <- app_assoc.
  - exists (Fopen path mode_wb true :: w ++ [Fflush true; Fileno false]),
      failed_fileno.
    cbn [app]. now rewrite <- app_assoc.
  - exists (Fopen path mode_wb true :: w ++
            [Fflush true; Fileno true; Fsync false]), failed_sync.
    cbn [app]. now rewrite <- app_assoc.
  - exists (Fopen path mode_wb true :: w ++
            [Fflush true; Fileno true; Fsync true; Fclose false]),
      failed_close.
    cbn [app]. now rewrite <- app_assoc.
  - exists (Fopen path mode_wb true :: w ++ barrier size ++
            [Fopen path mode_rb false]), failed_open_read.
    cbn [app]. now rewrite <- !app_assoc.
  - exists (Fopen path mode_wb true :: w ++ barrier size ++
            Fopen path mode_rb true :: rd), failed_read.
    cbn [app]. rewrite <- !app_assoc. split; reflexivity.
Qed.

Lemma barrier_calls_trace_of (s : stage) :
  barrier_calls (trace_of path size s w rd num) =
    match s with
    | st_open_write | st_write => []
    | st_flush => [(call_fflush, false)]
    | st_fileno => [(call_fflush, true); (call_fileno, false)]
    | st_sync =>
        [(call_fflush, true); (call_fileno, true); (call_fsync, false)]
    | st_close =>
        [(call_fflush, true); (call_fileno, true); (call_fsync, true);
         (call_fclose, false)]
    | _ =>
        [(call_fflush, true); (call_fileno, true); (call_fsync, true);
         (call_fclose, true)]
    end.
Proof.
  pose proof (write_events_no_barrier w Hw) as Hbw.
  pose proof (read_events_no_barrier rd Hrd) as Hbr.
  destruct s; cbn [trace_of barrier barrier_calls flat_map app];
    fold barrier_calls; rewrite ?barrier_calls_app, ?Hbw;
    cbn [barrier_calls flat_map app];
    fold barrier_calls; rewrite ?barrier_calls_app, ?Hbr;
    reflexivity.
Qed.

(** Before the file is opened again there is no such event, and after it
    none either and no call of [fwrite]. *)
Lemma trace_of_reopen (s : stage) :
  match s with
  | st_open_read | st_read | st_done =>
      exists ok tail,
        trace_of path size s w rd num =
          (Fopen path mode_wb true :: w ++ barrier size) ++
          Fopen path mode_rb ok :: tail /\
        forallb (fun e => negb (is_reopen e)) tail = true /\
        fwrite_calls tail = []
  | _ =>
      forallb (fun e => negb (is_reopen e))
        (trace_of path size s w rd num) = true
  end.
Proof.
  destruct (write_events_inert w Hw) as (_ & _ & _ & Hnw).
  destruct (read_events_inert rd Hrd) as (_ & Hfr & _ & Hnr).
  destruct s; cbn [trace_of];
    try (cbn [forallb is_reopen negb andb]; rewrite ?forallb_app, ?Hnw;
         reflexivity).
  - exists false, [Cerr failed_open_read].
    cbn [app]. rewrite <- !app_assoc. auto.
  - exists true, (rd ++ [Cerr failed_read]).
    cbn [app]. rewrite <- !app_assoc. repeat split.
    + rewrite forallb_app, Hnr. reflexivity.
    + rewrite fwrite_calls_app, Hfr. reflexivity.
  - exists true, (rd ++ [Cout (ReadBytes size);
                         Cout (Found num (percent num size))]).
    cbn [app]. rewrite <- !app_assoc. repeat split.
    + rewrite forallb_app, Hnr. reflexivity.
    + rewrite fwrite_calls_app, Hfr. reflexivity.
Qed.

End WholeRuns.

(** C5. Exit status.  The status is 0 or 1.  A run that prints the final
    report returns 0 whatever the mismatch counter is, and only such a run
    returns 0.  A run that returns 1 ends on the diagnostic of a size that
    does not parse, of a wrong number of arguments or of a file call that
    failed, and prints no final report. *)
Theorem exit_status {E : Engine} (o : os) (argv : list string) :
  (snd (main o argv) = 0 \/ snd (main o argv) = 1) /\
  (forall n, mismatch_counter (fst (main o argv)) = Some n ->
             snd (main o argv) = 0) /\
  (snd (main o argv) = 0 ->
   exists n, mismatch_counter (fst (main o argv)) = Some n) /\
  (snd (main o argv) <> 0 ->
   mismatch_counter (fst (main o argv)) = None /\
   exists pre d, fst (main o argv) = pre ++ [Cerr d] /\
                 (arg_failure d || io_failure d) = true).
Proof.
  unfold mismatch_counter.
  destruct (main_stages o argv)
    as [(pre & d & -> & Hd & Hpre)
       | (pre & seed & size & path & s & w & rd & num & -> & Hpre & Hw & Hrd & _)];
    cbn [fst snd].
  - destruct (diagnostics_inert pre Hpre) as (Hnone & _).
    rewrite final_report_app, Hnone. cbn.
    repeat split; try discriminate; auto; try lia.
    exists pre, d. now rewrite Hd.
  - destruct (diagnostics_inert pre Hpre) as (Hnone & _).
    rewrite final_report_app, Hnone, final_report_trace_of by assumption.
    destruct (stage_eq_dec s st_done) as [-> | Hs].
    + cbn. repeat split; auto; try lia. now exists num.
    + destruct (trace_of_failure path size w rd num s Hs)
        as (l & d & -> & Hd).
      assert (Hst : match s with st_done => 0 | _ => 1 end = 1)
        by now destruct s.
      rewrite Hst.
      replace (match s with st_done => Some (num, percent num size)
                          | _ => None end)
        with (@None (Z * float)) by now destruct s.
      cbn. repeat split; try discriminate; auto; try lia.
      exists (pre ++ l), d. rewrite app_assoc, Hd, orb_true_r. auto.
Qed.

Lemma exit_status_witness :
  mismatch_counter
    (fst (main (E := Prng) (corrupting_os (Z.to_nat 9000))
            ["write-read-test"; "42"; "10000"; "scratch"])) = Some 1 /\
  snd (main (E := Prng) (corrupting_os (Z.to_nat 9000))
         ["write-read-test"; "42"; "10000"; "scratch"]) = 0.
Proof.
  split; [vm_compute; reflexivity|].
  apply (proj1 (proj2 (exit_status (E := Prng) (corrupting_os (Z.to_nat 9000))
                         ["write-read-test"; "42"; "10000"; "scratch"])) 1).
  vm_compute. reflexivity.
Defined.

(** C6. Durability gating.  Wherever a run opens the file for reading, what
    comes just before is the barrier: [fflush], [fileno], [fsync] and
    [fclose] of the write handle, in that order, each successful, and the
    line that tells the bytes written; no barrier call and no opening for
    reading comes earlier, and no call of [fwrite] comes later.  The
    barrier calls of any run are the first few of these four, in that
    order.  If one of them fails, the run returns 1 without opening the
    file for reading and without any call of [fread]. *)
Theorem durability_gate {E : Engine} (o : os) (argv : list string) :
  (forall pre e post,
     fst (main o argv) = pre ++ e :: post -> is_reopen e = true ->
     exists before size,
       pre = before ++ barrier size /\
       barrier_calls before = [] /\
       forallb (fun x => negb (is_reopen x)) before = true /\
       fwrite_calls post = []) /\
  (exists k, map fst (barrier_calls (fst (main o argv))) =
             firstn k [call_fflush; call_fileno; call_fsync; call_fclose]) /\
  (forall c, In (c, false) (barrier_calls (fst (main o argv))) ->
     snd (main o argv) = 1 /\
     forallb (fun x => negb (is_reopen x)) (fst (main o argv)) = true /\
     fread_calls (fst (main o argv)) = []) /\
  (fflush_ok o = false \/ fsync_ok o = false \/ fclose_ok o = false ->
     snd (main o argv) = 1 /\
     forallb (fun x => negb (is_reopen x)) (fst (main o argv)) = true /\
     fread_calls (fst (main o argv)) = []).
Proof.
  destruct (main_stages o argv)
    as [(pre0 & d & -> & Hd & Hpre)
       | (pre0 & seed & size & path & s & w & rd & num & -> & Hpre & Hw & Hrd
          & Hcause)];
    cbn [fst snd].
  - assert (Hdiag : forallb is_diagnostic (pre0 ++ [Cerr d]) = true)
      by (rewrite forallb_app, Hpre; reflexivity).
    destruct (diagnostics_inert _ Hdiag) as (_ & Hb & _ & Hfr & Hno).
    rewrite Hb, Hfr, Hno.
    split; [intros pre e post Heq He; exfalso;
            exact (no_split is_reopen _ _ _ _ Hno Heq He)|].
    split; [now exists 0%nat|].
    split; [intros c []|auto].
  - destruct (diagnostics_inert _ Hpre) as (_ & Hb0 & _ & Hfr0 & Hno0).
    pose proof (trace_of_reopen path size w rd num Hw Hrd s) as Hre.
    pose proof (barrier_calls_trace_of path size w rd num Hw Hrd s) as Hbc.
    pose proof (fread_calls_trace_of path size w rd num Hw s) as Hfc.
    rewrite barrier_calls_app, Hb0, fread_calls_app, Hfr0, forallb_app, Hno0.
    cbn [app andb]. rewrite Hbc, Hfc.
    assert (Hgate :
      forall pre e post,
        pre0 ++ trace_of path size s w rd num = pre ++ e :: post ->
        is_reopen e = true ->
        exists before size0,
          pre = before ++ barrier size0 /\ barrier_calls before = [] /\
          forallb (fun x => negb (is_reopen x)) before = true /\
          fwrite_calls post = []).
    { intros pre e post Heq He.
      destruct (write_events_inert w Hw) as (_ & _ & _ & Hnw).
      destruct s; try (exfalso; eapply (no_split is_reopen);
                       [|exact Heq|exact He];
                       rewrite forallb_app, Hno0, Hre; reflexivity);
        destruct Hre as (ok & tail & Htr & Hnt & Hft);
        rewrite Htr, app_assoc in Heq;
        apply split_unique with (P := is_reopen) in Heq;
        try assumption;
        try (rewrite !forallb_app, Hno0; cbn [forallb is_reopen negb andb];
             rewrite forallb_app, Hnw; reflexivity);
        destruct Heq as (-> & -> & ->);
        exists (pre0 ++ Fopen path mode_wb true :: w), size;
        (split; [now rewrite <- app_assoc|]);
        (split; [rewrite barrier_calls_app, Hb0; cbn;
                 now apply write_events_no_barrier|]);
        (split; [rewrite forallb_app, Hno0; cbn; assumption|]);
        assumption. }
    split; [exact Hgate|]. split; [|split].
    + destruct s; cbn [map fst];
        [exists 0%nat | exists 0%nat | exists 1%nat | exists 2%nat
        | exists 3%nat | exists 4%nat | exists 4%nat | exists 4%nat
        | exists 4%nat]; reflexivity.
    + intros c Hin.
      destruct s; cbn [In] in Hin;
        repeat match goal with
               | H : _ \/ _ |- _ => destruct H
               | H : (_, _) = (_, _) |- _ => discriminate H
               | H : False |- _ => destruct H
               end; auto.
    + intros Hfail.
      destruct s; cbn [cause] in Hcause; auto;
        exfalso; intuition congruence.
Qed.

(* ------------------------------------------------------------------ *)
(** ** Degenerate and faulty arguments *)

(** C2, as the specification states it, fails: with SIZE = 0 no status line
    is printed at all, and the error percentage handed to the output is
    [0.0 / 0.0 * 100.0], which is not a number; the final report does not
    carry 100. *)
Lemma zero_size_not_100 :
  final_report
    (fst (main (E := Prng) ideal_os ["write-read-test"; "0"; "scratch"])) =
    Some (0, nan) /\
  PrimFloat.is_nan nan = true /\
  ~ (exists n,
       final_report
         (fst (main (E := Prng) ideal_os ["write-read-test"; "0"; "scratch"]))
       = Some (n, 100%float)) /\
  progress_lines
    (fst (main (E := Prng) ideal_os ["write-read-test"; "0"; "scratch"])) = [].
Proof.
  assert (Hrep : final_report
                   (fst (main (E := Prng) ideal_os
                           ["write-read-test"; "0"; "scratch"])) =
                 Some (0, nan)) by (vm_compute; reflexivity).
  repeat split; try (vm_compute; reflexivity).
  intros [n H]. rewrite Hrep in H.
  apply (f_equal (fun r => match r with
                           | Some (_, pct) => PrimFloat.is_nan pct
                           | None => false
                           end)) in H.
  vm_compute in H. discriminate H.
Qed.

(** A run of lines 87-175 with size 0, for every seed: no pass of either
    loop. *)
Lemma test_file_zero {E : Engine} (o : os) (seed : Z) (path : string) :
  reliable o path ->
  test_file o seed 0 path =
    (Fopen path mode_wb true :: barrier 0 ++
     [Fopen path mode_rb true; Cout (ReadBytes 0);
      Cout (Found 0 (percent 0 0))], Continue tt).
Proof.
  intros (Hwb & _ & Hfl & Hfn & Hsy & Hcl & Hrb & _).
  unfold test_file. cbv zeta.
  rewrite write_loop_done by lia.
  rewrite Hwb, Hfl, Hfn, Hsy, Hcl, Hrb.
  cbn [bind emit fail_if ret negb].
  rewrite read_loop_done by lia. reflexivity.
Qed.

(** C2, amended.  Every run with SIZE = 0 in which the file calls succeed:
    whatever the seed, lines 87-175 make no call of [fwrite] or [fread] and
    print no status line; they open the file, pass the barrier, report 0
    bytes written, open the file again and report 0 bytes read and 0
    errors.  The percentage printed with the errors is [percent 0 0], which
    is not a number.  So it is for [main] with three arguments and with
    four, whenever the SIZE argument parses to 0: the status is 0 and the
    events are these, after the seed diagnostic if SEED did not parse. *)
Theorem zero_size_run {E : Engine} (o : os) (seed : Z) (path : string) :
  reliable o path ->
  test_file o seed 0 path =
    (Fopen path mode_wb true :: barrier 0 ++
     [Fopen path mode_rb true; Cout (ReadBytes 0);
      Cout (Found 0 (percent 0 0))], Continue tt) /\
  PrimFloat.is_nan (percent 0 0) = true /\
  (forall name arg p,
     parse_size arg = Some 0 -> string_view p = path ->
     main o [name; arg; p] =
       (Fopen path mode_wb true :: barrier 0 ++
        [Fopen path mode_rb true; Cout (ReadBytes 0);
         Cout (Found 0 (percent 0 0))], 0)) /\
  (forall name seed_arg arg p,
     parse_size arg = Some 0 -> string_view p = path ->
     snd (main o [name; seed_arg; arg; p]) = 0 /\
     exists pre,
       fst (main o [name; seed_arg; arg; p]) =
         pre ++ Fopen path mode_wb true :: barrier 0 ++
         [Fopen path mode_rb true; Cout (ReadBytes 0);
          Cout (Found 0 (percent 0 0))] /\
       (pre = [] \/
        pre = [Cerr (failed_parse_seed (string_view seed_arg))])).
Proof.
  intros Hrel.
  split; [now apply test_file_zero|].
  split; [vm_compute; reflexivity|]. split.
  - intros name arg p Hparse <-.
    assert (Hargs : parse_args [name; arg; p] =
                    ret (default_seed, 0, string_view p)).
    { unfold parse_args. cbn [List.length Z.of_nat nth].
      change (Z.of_nat 3 =? 3) with true. cbv iota zeta. now rewrite Hparse. }
    rewrite main_decompose, Hargs. cbn [ret fst snd app].
    now rewrite test_file_zero.
  - intros name seed_arg arg p Hparse <-.
    rewrite main_decompose. unfold parse_args.
    cbn [List.length Z.of_nat nth].
    change (Z.of_nat 4 =? 3) with false. change (Z.of_nat 4 =? 4) with true.
    cbv iota zeta.
    destruct (from_chars (string_view seed_arg) default_seed) as [res seed'].
    rewrite Hparse.
    destruct (ec res); cbn -[test_file barrier percent];
      rewrite test_file_zero by assumption; cbn -[barrier percent];
      (split; [reflexivity|]);
      [exists []
      |exists [Cerr (failed_parse_seed (string_view seed_arg))]
      |exists [Cerr (failed_parse_seed (string_view seed_arg))]];
      split; auto.
Qed.

Lemma zero_size_run_witness :
  test_file (E := Prng) ideal_os 42 0 "scratch" =
    (Fopen "scratch" mode_wb true :: barrier 0 ++
     [Fopen "scratch" mode_rb true; Cout (ReadBytes 0);
      Cout (Found 0 (percent 0 0))], Continue tt) /\
  PrimFloat.is_nan (percent 0 0) = true /\
  main (E := Prng) ideal_os ["write-read-test"; "0"; "scratch"] =
    (Fopen "scratch" mode_wb true :: barrier 0 ++
     [Fopen "scratch" mode_rb true; Cout (ReadBytes 0);
      Cout (Found 0 (percent 0 0))], 0) /\
  snd (main (E := Prng) ideal_os ["write-read-test"; "7"; "0K"; "scratch"])
    = 0 /\
  exists pre,
    fst (main (E := Prng) ideal_os ["write-read-test"; "7"; "0K"; "scratch"])
    = pre ++ Fopen "scratch" mode_wb true :: barrier 0 ++
      [Fopen "scratch" mode_rb true; Cout (ReadBytes 0);
       Cout (Found 0 (percent 0 0))] /\
    (pre = [] \/ pre = [Cerr (failed_parse_seed (string_view "7"))]).
Proof.
  destruct (zero_size_run (E := Prng) ideal_os 42 "scratch"
              (ideal_os_reliable "scratch")) as (Hrun & Hnan & H3 & H4).
  split; [exact Hrun|]. split; [exact Hnan|]. split.
  - apply (H3 "write-read-test" "0" "scratch"); reflexivity.
  - apply (H4 "write-read-test" "7" "0K" "scratch"); reflexivity.
Defined.

(** C3 does not hold of the code.  With four arguments and a seed that does
    not start with a digit, [main] prints the diagnostic and then goes on as
    if no seed had been given: it runs lines 87-175 with the default seed,
    and its status is the status of that run. *)
Theorem bad_seed_goes_on {E : Engine} (o : os)
    (name seed_arg size_arg path : string) (size : Z) :
  is_digit (deref seed_arg) = false ->
  parse_size size_arg = Some size ->
  fst (main o [name; seed_arg; size_arg; path]) =
    Cerr (failed_parse_seed (string_view seed_arg)) ::
    fst (test_file o default_seed size (string_view path)) /\
  snd (main o [name; seed_arg; size_arg; path]) =
    match snd (test_file o default_seed size (string_view path)) with
    | Continue _ => 0
    | Return status => status
    end.
Proof.
  intros Hseed Hsize. rewrite main_decompose.
  unfold parse_args. cbn [List.length Z.of_nat nth].
  change (Z.of_nat 4 =? 3) with false. change (Z.of_nat 4 =? 4) with true.
  cbv iota zeta.
  rewrite from_chars_no_digit by now rewrite deref_string_view.
  cbn [ec]. rewrite Hsize. cbn. auto.
Qed.

Lemma bad_seed_goes_on_witness :
  main (E := Prng) ideal_os ["write-read-test"; "abc"; "1"; "scratch"] =
    ([Cerr (failed_parse_seed "abc"); Fopen "scratch" mode_wb true;
      Fwrite [12] 1; Cout (Writing 100); Fflush true; Fileno true;
      Fsync true; Fclose true; Cout (Wrote 1);
      Fopen "scratch" mode_rb true; Fread 1 [12]; Cout (Reading 100);
      Cout (ReadBytes 1); Cout (Found 0 0)], 0).
Proof.
  pose proof (bad_seed_goes_on (E := Prng) ideal_os "write-read-test" "abc"
                "1" "scratch" 1 eq_refl eq_refl) as [Hevs Hstatus].
  rewrite (surjective_pairing (main _ _)), Hevs, Hstatus.
  vm_compute. reflexivity.
Defined.

(* ------------------------------------------------------------------ *)
(** ** Further properties: the arguments *)

Section MoreArguments.

Lemma scan_digits_app (ds rest : string) (acc : Z) :
  all_digits ds = true ->
  scan_digits (ds ++ rest) acc =
    scan_digits rest
      (fold_left (fun acc c => 10 * acc + digit_value c)
         (list_ascii_of_string ds) acc).
Proof.
  revert acc. induction ds as [|c ds IH]; intros acc Hds;
    cbn [append scan_digits list_ascii_of_string fold_left all_digits] in *;
    [reflexivity|].
  apply andb_true_iff in Hds as [Hc Hds]. rewrite Hc. now apply IH.
Qed.

Lemma scan_digits_ge (s : string) (acc : Z) :
  0 <= acc -> acc <= fst (scan_digits s acc).
Proof.
  revert acc. induction s as [|c s IH]; intros acc Hacc;
    cbn [scan_digits]; [cbn; lia|].
  destruct (is_digit c) eqn:Hc; [|cbn; lia].
  unfold is_digit in Hc. apply andb_true_iff in Hc as [Hlo _].
  apply Z.leb_le in Hlo.
  specialize (IH (10 * acc + digit_value c)). unfold digit_value in *. lia.
Qed.

(** A numeral that does not fit in 64 bits, whatever follows it. *)
Lemma from_chars_overflow (ds rest : string) (value : Z) :
  numeral ds -> decimal ds > UINT64_MAX ->
  ec (fst (from_chars (ds ++ rest) value)) = result_out_of_range /\
  snd (from_chars (ds ++ rest) value) = value.
Proof.
  intros [Hne Hds] Hbig. unfold from_chars.
  assert (Hfirst : is_digit (deref (ds ++ rest)) = true).
  { destruct ds as [|c ds]; [congruence|]. simpl in *.
    now apply andb_true_iff in Hds as [Hc _]. }
  rewrite Hfirst, scan_digits_app by assumption. fold (decimal ds).
  pose proof (scan_digits_ge rest (decimal ds)
                (decimal_nonneg ds Hds)) as Hge.
  destruct (scan_digits rest (decimal ds)) as [v rest']. cbn [fst] in Hge.
  destruct (v <=? UINT64_MAX) eqn:Hle; [apply Z.leb_le in Hle; lia|].
  split; reflexivity.
Qed.

End MoreArguments.

(** X1. A numeral that does not fit in 64 bits is rejected, whatever comes
    after it: the overflow of the digits is detected, unlike the overflow of
    the multiplication by the unit. *)
Theorem parse_size_numeral_overflow (ds rest : string) :
  numeral ds -> decimal ds > UINT64_MAX ->
  parse_size (ds ++ rest) = None.
Proof.
  intros Hnum Hbig. unfold parse_size.
  rewrite string_view_digits by apply Hnum.
  destruct (from_chars_overflow ds (string_view rest) 0 Hnum Hbig)
    as [Hec _].
  destruct (from_chars (ds ++ string_view rest) 0) as [res v].
  cbn [fst] in Hec. now rewrite Hec.
Qed.

Lemma parse_size_numeral_overflow_witness :
  parse_size "18446744073709551616K" = None.
Proof.
  apply (parse_size_numeral_overflow "18446744073709551616" "K").
  - split; [discriminate | reflexivity].
  - vm_compute. reflexivity.
Defined.

(** X2. With four arguments, SEED is read up to its first character that
    is no digit and the rest of it is ignored without a diagnostic: the run
    is the run of lines 87-175 with the value of the leading numeral as
    seed. *)
Theorem seed_prefix_is_used {E : Engine} (o : os)
    (name ds rest size_arg path : string) (size : Z) :
  numeral ds -> decimal ds <= UINT64_MAX ->
  is_digit (deref rest) = false ->
  parse_size size_arg = Some size ->
  fst (main o [name; (ds ++ rest)%string; size_arg; path]) =
    fst (test_file o (decimal ds) size (string_view path)) /\
  snd (main o [name; (ds ++ rest)%string; size_arg; path]) =
    match snd (test_file o (decimal ds) size (string_view path)) with
    | Continue _ => 0
    | Return status => status
    end.
Proof.
  intros Hnum Hmax Hrest Hsize. rewrite main_decompose.
  unfold parse_args. cbn [List.length Z.of_nat nth].
  change (Z.of_nat 4 =? 3) with false. change (Z.of_nat 4 =? 4) with true.
  cbv iota zeta.
  rewrite string_view_digits by apply Hnum.
  rewrite from_chars_numeral
    by (assumption || now rewrite deref_string_view).
  apply Z.leb_le in Hmax. rewrite Hmax. cbn [ec]. rewrite Hsize. cbn. auto.
Qed.

Lemma seed_prefix_is_used_witness :
  fst (main (E := Prng) ideal_os
         ["write-read-test"; "5489xyz"; "3"; "scratch"]) =
    fst (test_file (E := Prng) ideal_os 5489 3 "scratch") /\
  snd (main (E := Prng) ideal_os
         ["write-read-test"; "5489xyz"; "3"; "scratch"]) = 0.
Proof.
  apply (seed_prefix_is_used (E := Prng) ideal_os "write-read-test"
           "5489" "xyz" "3" "scratch" 3).
  - split; [discriminate | reflexivity].
  - vm_compute. discriminate.
  - reflexivity.
  - reflexivity.
Defined.

(** X3. The file is touched only once the arguments are accepted.  When
    there are not three or four arguments, or SIZE does not parse, [main]
    returns 1 and its events are diagnostics only.  Otherwise the first
    event that is no diagnostic is the opening for writing of the last
    argument. *)
Theorem file_untouched_unless_accepted {E : Engine} (o : os)
    (argv : list string) :
  ((forall arg, size_argument argv = Some arg -> parse_size arg = None) ->
   snd (main o argv) = 1 /\
   forallb is_diagnostic (fst (main o argv)) = true) /\
  (forall arg size,
     size_argument argv = Some arg -> parse_size arg = Some size ->
     exists pre ok rest,
       fst (main o argv) =
         pre ++ Fopen (string_view (last argv EmptyString)) mode_wb ok
                :: rest /\
       forallb is_diagnostic pre = true).
Proof.
  assert (Hopen : forall seed size path,
            0 <= size <= UINT64_MAX ->
            exists ok rest,
              fst (test_file o seed size path) =
                Fopen path mode_wb ok :: rest).
  { intros seed size path Hsize.
    destruct (test_file_stages o seed size path Hsize)
      as (s & w & rd & num & -> & _).
    destruct s; cbn [fst trace_of]; eauto. }
  rewrite main_decompose. pose proof (parse_args_cases argv) as Hcases.
  unfold size_argument. unfold parse_args in *. cbv zeta in *.
  destruct argv as [|a0 [|a1 [|a2 [|a3 [|a4 argv]]]]];
    cbn [List.length nth last] in *.
  1-3: split; [intros _; cbn; auto | discriminate].
  - change (Z.of_nat 3 =? 3) with true in *. cbv iota in *.
    destruct (parse_size a1) as [size|] eqn:Hp; cbn [fst snd ret] in *.
    + split; [intros H; specialize (H a1 eq_refl); congruence|].
      intros arg size' _ _. destruct Hcases as [Hsize _].
      destruct (Hopen default_seed size (string_view a2) Hsize)
        as (ok & rest & Hev).
      exists [], ok, rest. cbn [fst app]. rewrite Hev. split; reflexivity.
    + split; [intros _; cbn; auto|].
      intros arg size' [= <-]. congruence.
  - change (Z.of_nat 4 =? 3) with false in *.
    change (Z.of_nat 4 =? 4) with true in *. cbv iota in *.
    destruct (from_chars (string_view a1) default_seed) as [res seed].
    destruct (parse_size a2) as [size|] eqn:Hp.
    + split; [intros H; specialize (H a2 eq_refl); congruence|].
      intros arg size' _ _.
      assert (Hsize : 0 <= size <= UINT64_MAX)
        by (destruct (ec res); cbn in Hcases; apply Hcases).
      destruct (Hopen seed size (string_view a3) Hsize) as (ok & rest & Hev).
      destruct (ec res);
        [exists []
        |exists [Cerr (failed_parse_seed (string_view a1))]
        |exists [Cerr (failed_parse_seed (string_view a1))]];
        exists ok, rest; cbn [fst snd bind ret emit app];
        rewrite Hev; split; reflexivity.
    + split; [intros _; destruct (ec res); cbn; auto|].
      intros arg size' [= <-]. congruence.
  - assert (H3 : (Z.of_nat (S (S (S (S (S (List.length argv)))))) =? 3)
                 = false) by (apply Z.eqb_neq; lia).
    assert (H4 : (Z.of_nat (S (S (S (S (S (List.length argv)))))) =? 4)
                 = false) by (apply Z.eqb_neq; lia).
    rewrite H3, H4. split; [intros _; cbn; auto | discriminate].
Qed.

(* ------------------------------------------------------------------ *)
(** ** Further properties: the calls of the two loops *)

Section MoreLoops.

Context {E : Engine}.
Variable o : os.

Lemma status_final (line : float -> report) (size : Z) :
  fst (status line size 0) =
    [Cout (line (percent (wrap64 (size - 0)) size))].
Proof. unfold status. rewrite Z.eqb_refl, orb_true_r. reflexivity. Qed.

Lemma bytes_moved_cons (c : Z * Z) (calls : list (Z * Z)) :
  bytes_moved (c :: calls) = snd c + bytes_moved calls.
Proof. reflexivity. Qed.

Lemma full_calls_not_short (calls : list (Z * Z)) :
  forallb full_call calls = true -> existsb short_call calls = false.
Proof.
  induction calls as [|c calls IH]; [reflexivity|].
  cbn [forallb existsb]. intros H. apply andb_true_iff in H as [Hc H].
  rewrite (IH H), orb_false_r. unfold full_call, short_call in *.
  apply Z.eqb_eq in Hc. apply Z.ltb_ge. lia.
Qed.

(** The calls of the write loop: each asks for between one byte and a
    buffer, the bytes taken do not exceed [bytes_left], and every call but a
    last short one is taken in full.  A loop that finishes after at least
    one pass ends on the status line of the whole size; one that does not
    finish ends on the short call and its diagnostic. *)
Lemma write_loop_calls (bytes_left : Z) :
  0 <= bytes_left ->
  forall (size : Z) (prng : engine_state) (k : nat) (file : list Z),
  let p := write_loop o size bytes_left prng k file in
  Forall call_ok (fwrite_calls (fst p)) /\
  bytes_moved (fwrite_calls (fst p)) <= bytes_left /\
  match snd p with
  | Continue _ =>
      forallb full_call (fwrite_calls (fst p)) = true /\
      (0 < bytes_left ->
       exists pre,
         fst p = pre ++ [Cout (Writing (percent (wrap64 (size - 0)) size))])
  | Return _ =>
      exists pre data r,
        fst p = pre ++ [Fwrite data r; Cerr failed_write] /\
        0 <= r < Z.of_nat (List.length data) /\
        forallb full_call (fwrite_calls pre) = true
  end.
Proof.
  intros Hbl. pattern bytes_left. apply Zlt_0_ind; [|assumption].
  clear bytes_left Hbl. intros bl IH Hbl size prng k file.
  destruct (Z.eq_dec bl 0) as [-> | Hne].
  - rewrite write_loop_done by lia. cbn [fst snd ret fwrite_calls flat_map].
    split; [constructor|]. split; [cbn; lia|].
    split; [reflexivity | intros; lia].
  - rewrite write_loop_step by lia. cbv zeta.
    set (n := Z.min bl buffer_size_bytes).
    set (data := firstn (Z.to_nat n) (as_bytes (fst (fill_buffer prng)))).
    assert (Hn : 0 < n <= bl /\ n <= buffer_size_bytes)
      by (subst n; rewrite buffer_size_bytes_eq; lia).
    assert (Hdata : Z.of_nat (List.length data) = n).
    { subst data. rewrite length_firstn, fill_buffer_bytes.
      subst n. rewrite buffer_size_bytes_eq. lia. }
    assert (Hret : 0 <= fwrite o k n <= n) by (unfold fwrite; lia).
    destruct (fwrite o k n <? n) eqn:Hshort.
    + apply Z.ltb_lt in Hshort. cbn [fst snd fwrite_calls flat_map app].
      rewrite Hdata. repeat split.
      * repeat constructor; cbn [fst snd]; lia.
      * cbn. lia.
      * exists [], data, (fwrite o k n). repeat split; auto; lia.
    + apply Z.ltb_ge in Hshort.
      assert (Hfull : fwrite o k n = n) by lia. rewrite Hfull.
      specialize (IH (bl - n) ltac:(lia) size (snd (fill_buffer prng)) (S k)
                     (file ++ firstn (Z.to_nat n) data)).
      cbv zeta in IH.
      pose proof (write_loop_done o size (bl - n) (snd (fill_buffer prng))
                    (S k) (file ++ firstn (Z.to_nat n) data)) as Hdone.
      destruct (write_loop o size (bl - n) (snd (fill_buffer prng)) (S k)
                  (file ++ firstn (Z.to_nat n) data)) as [evs r].
      destruct (status_writing size (bl - n)) as (_ & _ & Hs3).
      cbn [fst snd] in *.
      destruct IH as (Hok & Hmoved & Hcase).
      assert (Hcalls :
        fwrite_calls
          (Fwrite data n :: fst (status Writing size (bl - n)) ++ evs) =
        (n, n) :: fwrite_calls evs).
      { cbn [fwrite_calls flat_map].
        fold (fwrite_calls (fst (status Writing size (bl - n)) ++ evs)).
        now rewrite fwrite_calls_app, Hs3, Hdata. }
      rewrite Hcalls. split; [|split].
      * constructor; [|assumption]. unfold call_ok. cbn [fst snd]. lia.
      * rewrite bytes_moved_cons. cbn [snd]. lia.
      * destruct r as [file' | st].
        -- destruct Hcase as [Hfullc Hlast]. split.
           ++ cbn [forallb]. unfold full_call at 1. cbn [fst snd].
              now rewrite Z.eqb_refl, Hfullc.
           ++ intros _. destruct (Z.eq_dec (bl - n) 0) as [H0 | Hpos].
              ** rewrite H0 in *. specialize (Hdone (Z.le_refl 0)).
                 injection Hdone as -> _. rewrite status_final.
                 now exists [Fwrite data n].
              ** destruct (Hlast ltac:(lia)) as [pre ->].
                 exists (Fwrite data n :: fst (status Writing size (bl - n))
                         ++ pre).
                 now rewrite app_comm_cons, app_assoc.
        -- destruct Hcase as (pre & data' & r' & -> & Hr' & Hpre).
           exists (Fwrite data n :: fst (status Writing size (bl - n))
                   ++ pre), data', r'.
           repeat split; try lia.
           ++ now rewrite app_comm_cons, app_assoc.
           ++ cbn [fwrite_calls flat_map].
              fold (fwrite_calls (fst (status Writing size (bl - n)) ++ pre)).
              rewrite fwrite_calls_app, Hs3, Hdata. cbn [app forallb].
              unfold full_call at 1. cbn [fst snd].
              now rewrite Z.eqb_refl, Hpre.
Qed.

(** The calls of the read loop, in the same way. *)
Lemma read_loop_calls (bytes_left : Z) :
  0 <= bytes_left ->
  forall (size : Z) (prng : engine_state) (k : nat)
         (unread read_bytes : list Z) (num : Z),
  let p := read_loop o size bytes_left prng k unread read_bytes num in
  Forall call_ok (fread_calls (fst p)) /\
  bytes_moved (fread_calls (fst p)) <= bytes_left /\
  match snd p with
  | Continue _ =>
      forallb full_call (fread_calls (fst p)) = true /\
      (0 < bytes_left ->
       exists pre,
         fst p = pre ++ [Cout (Reading (percent (wrap64 (size - 0)) size))])
  | Return _ =>
      exists pre n data,
        fst p = pre ++ [Fread n data; Cerr failed_read] /\
        Z.of_nat (List.length data) < n /\
        forallb full_call (fread_calls pre) = true
  end.
Proof.
  intros Hbl. pattern bytes_left. apply Zlt_0_ind; [|assumption].
  clear bytes_left Hbl.
  intros bl IH Hbl size prng k unread read_bytes num.
  destruct (Z.eq_dec bl 0) as [-> | Hne].
  - rewrite read_loop_done by lia. cbn [fst snd ret fread_calls flat_map].
    split; [constructor|]. split; [cbn; lia|].
    split; [reflexivity | intros; lia].
  - rewrite read_loop_step by lia. cbv zeta.
    set (n := Z.min bl buffer_size_bytes).
    set (data := fread o k unread n).
    assert (Hn : 0 < n <= bl /\ n <= buffer_size_bytes)
      by (subst n; rewrite buffer_size_bytes_eq; lia).
    assert (Hlen : 0 <= Z.of_nat (List.length data) <= n).
    { subst data. unfold fread. rewrite length_firstn. lia. }
    destruct (Z.of_nat (List.length data) <? n) eqn:Hshort.
    + apply Z.ltb_lt in Hshort. cbn [fst snd fread_calls flat_map app].
      repeat split.
      * repeat constructor; cbn [fst snd]; lia.
      * cbn. lia.
      * exists [], n, data. repeat split; auto.
    + apply Z.ltb_ge in Hshort.
      assert (Hfull : Z.of_nat (List.length data) = n) by lia.
      match goal with
      | |- context [read_loop o size (bl - n) ?g ?k' ?u ?rb ?num'] =>
          specialize (IH (bl - n) ltac:(lia) size g k' u rb num');
          pose proof (read_loop_done o size (bl - n) g k' u rb num') as Hdone;
          cbv zeta in IH;
          destruct (read_loop o size (bl - n) g k' u rb num') as [evs r]
      end.
      destruct (status_reading size (bl - n)) as (_ & _ & Hs3).
      cbn [fst snd] in *.
      destruct IH as (Hok & Hmoved & Hcase).
      assert (Hcalls :
        fread_calls
          (Fread n data :: fst (status Reading size (bl - n)) ++ evs) =
        (n, n) :: fread_calls evs).
      { cbn [fread_calls flat_map].
        fold (fread_calls (fst (status Reading size (bl - n)) ++ evs)).
        now rewrite fread_calls_app, Hs3, Hfull. }
      rewrite Hcalls. split; [|split].
      * constructor; [|assumption]. unfold call_ok. cbn [fst snd]. lia.
      * rewrite bytes_moved_cons. cbn [snd]. lia.
      * destruct r as [num' | st].
        -- destruct Hcase as [Hfullc Hlast]. split.
           ++ cbn [forallb]. unfold full_call at 1. cbn [fst snd].
              now rewrite Z.eqb_refl, Hfullc.
           ++ intros _. destruct (Z.eq_dec (bl - n) 0) as [H0 | Hpos].
              ** rewrite H0 in *. specialize (Hdone (Z.le_refl 0)).
                 injection Hdone as -> _. rewrite status_final.
                 now exists [Fread n data].
              ** destruct (Hlast ltac:(lia)) as [pre ->].
                 exists (Fread n data :: fst (status Reading size (bl - n))
                         ++ pre).
                 now rewrite app_comm_cons, app_assoc.
        -- destruct Hcase as (pre & n' & data' & -> & Hr' & Hpre).
           exists (Fread n data :: fst (status Reading size (bl - n))
                   ++ pre), n', data'.
           repeat split; try lia.
           ++ now rewrite app_comm_cons, app_assoc.
           ++ cbn [fread_calls flat_map].
              fold (fread_calls (fst (status Reading size (bl - n)) ++ pre)).
              rewrite fread_calls_app, Hs3, Hfull. cbn [app forallb].
              unfold full_call at 1. cbn [fst snd].
              now rewrite Z.eqb_refl, Hpre.
Qed.

End MoreLoops.

Section MoreRuns.

Context {E : Engine}.
Variable o : os.

(** The stages again, with the events of the two loops named. *)
Lemma test_file_trace (seed size : Z) (path : string) :
  0 <= size <= UINT64_MAX ->
  exists (s : stage) (w rd : list event) (num : Z),
    test_file o seed size path =
      (trace_of path size s w rd num, outcome_of s) /\
    forallb write_event w = true /\
    forallb read_event rd = true /\
    cause o path size (medium o (reference seed size)) s /\
    match s with
    | st_open_write => w = [] /\ rd = []
    | st_write =>
        fst (write_loop o size size (engine_seed seed) 0 []) =
          w ++ [Cerr failed_write] /\
        snd (write_loop o size size (engine_seed seed) 0 []) = Return 1 /\
        rd = []
    | st_read =>
        fst (write_loop o size size (engine_seed seed) 0 []) = w /\
        exists file,
          snd (write_loop o size size (engine_seed seed) 0 []) =
            Continue file /\
          fst (read_loop o size size (engine_seed seed) 0 (medium o file)
                 (as_bytes (repeat 0 buffer_size)) 0) =
            rd ++ [Cerr failed_read] /\
          snd (read_loop o size size (engine_seed seed) 0 (medium o file)
                 (as_bytes (repeat 0 buffer_size)) 0) = Return 1
    | st_done =>
        fst (write_loop o size size (engine_seed seed) 0 []) = w /\
        exists file,
          snd (write_loop o size size (engine_seed seed) 0 []) =
            Continue file /\
          read_loop o size size (engine_seed seed) 0 (medium o file)
            (as_bytes (repeat 0 buffer_size)) 0 = (rd, Continue num)
    | _ =>
        fst (write_loop o size size (engine_seed seed) 0 []) = w /\
        (exists file,
           snd (write_loop o size size (engine_seed seed) 0 []) =
             Continue file) /\
        rd = []
    end.
Proof.
  intros Hsize.
  remember (test_file o seed size path) as result eqn:Hres.
  unfold test_file in Hres. cbv zeta in Hres.
  rewrite (@bind_emit_after unit), (@bind_fail_if unit) in Hres.
  destruct (fopen_wb o path) eqn:Hwb; cbn [negb] in Hres.
  2:{ exists st_open_write, [], [], 0. subst result.
      repeat split; try discriminate. assumption. }
  pose proof (write_loop_spec o size (proj1 Hsize) size (engine_seed seed)
                0%nat []) as Hw.
  cbv zeta in Hw. rewrite bind_pair in Hres.
  destruct (write_loop o size size (engine_seed seed) 0 []) as [w [file|st]];
    cbn [fst snd] in *.
  2:{ destruct Hw as (-> & (w' & -> & Hw') & Hj).
      exists st_write, w', [], 0. subst result.
      repeat split; try discriminate; auto. }
  destruct Hw as (Hw & Hfile & Hwritten & Hwcalls). cbn [app] in Hfile.
  fold (reference seed size) in Hwritten.
  rewrite ?(@bind_emit_after unit), ?(@bind_fail_if unit) in Hres.
  destruct (fflush_ok o) eqn:Hflush; cbn [negb] in Hres.
  2:{ exists st_flush, w, [], 0. subst result.
      repeat split; try discriminate; eauto. }
  destruct (fileno_ok o) eqn:Hfileno; cbn [negb] in Hres.
  2:{ exists st_fileno, w, [], 0. subst result.
      repeat split; try discriminate; eauto. }
  destruct (fsync_ok o) eqn:Hsync; cbn [negb] in Hres.
  2:{ exists st_sync, w, [], 0. subst result.
      repeat split; try discriminate; eauto. }
  destruct (fclose_ok o) eqn:Hclose; cbn [negb] in Hres.
  2:{ exists st_close, w, [], 0. subst result.
      repeat split; try discriminate; eauto. }
  destruct (fopen_rb o path) eqn:Hrb; cbn [negb] in Hres.
  2:{ exists st_open_read, w, [], 0. subst result.
      repeat split; try discriminate; eauto. }
  pose proof (read_loop_spec o size (proj1 Hsize) size (engine_seed seed)
                0%nat (medium o file) (as_bytes (repeat 0 buffer_size)) 0
                (Z.le_refl 0) ltac:(lia)) as Hr.
  cbv zeta in Hr. rewrite bind_pair in Hres.
  assert (Hmed : medium o file = medium o (reference seed size))
    by now rewrite Hfile, Hwritten.
  destruct (read_loop o size size (engine_seed seed) 0 (medium o file)
              (as_bytes (repeat 0 buffer_size)) 0) as [rd [num|st]] eqn:Hrl;
    cbn [fst snd] in *.
  2:{ destruct Hr as (-> & (rd' & -> & Hrd') & Hcause).
      exists st_read, w, rd', 0. subst result.
      rewrite <- Hmed.
      repeat split; try discriminate; auto.
      exists file. rewrite Hrl. auto. }
  destruct Hr as (Hrd & _).
  exists st_done, w, rd, num. subst result.
  unfold after. cbn [fst snd app emit].
  repeat split; auto.
  exists file. now rewrite Hrl.
Qed.

End MoreRuns.

Lemma stream_bytes_firstn {E : Engine} (prng : engine_state) (n m : nat) :
  (n <= m)%nat -> firstn n (stream_bytes prng m) = stream_bytes prng n.
Proof.
  intros Hnm. unfold stream_bytes at 1. rewrite firstn_firstn, Nat.min_l by lia.
  apply stream_bytes_prefix.
  pose proof (Nat.div_mod_eq (m + 7) 8).
  pose proof (Nat.mod_upper_bound (m + 7) 8). lia.
Qed.

Lemma truncating_os_reliable (len : nat) (path : string) :
  reliable (truncating_os len) path.
Proof. repeat split; intros; cbn; lia. Qed.

(** X4. The file of a shorter run is the beginning of the file of a longer
    run with the same seed: what is written depends on the seed and on the
    position only, not on the size nor on where the buffers end. *)
Theorem written_is_prefix {E : Engine} (o o' : os) (seed n m : Z)
    (path path' : string) :
  0 <= n <= m -> m <= UINT64_MAX ->
  snd (test_file o seed n path) = Continue tt ->
  snd (test_file o' seed m path') = Continue tt ->
  written (fst (test_file o seed n path)) =
    firstn (Z.to_nat n) (written (fst (test_file o' seed m path'))).
Proof.
  intros Hnm Hm Hn_done Hm_done.
  destruct (test_file_outcomes o seed n path ltac:(lia))
    as [(c & _ & _ & Hwn & _) | (Hret & _)]; [|congruence].
  destruct (test_file_outcomes o' seed m path' ltac:(lia))
    as [(c' & _ & _ & Hwm & _) | (Hret & _)]; [|congruence].
  rewrite Hwn, Hwm. unfold reference. symmetry.
  apply stream_bytes_firstn. lia.
Qed.

Lemma written_is_prefix_witness :
  written (fst (test_file (E := Prng) ideal_os 42 5000 "scratch")) =
    firstn (Z.to_nat 5000) (written sample_run).
Proof.
  apply (written_is_prefix (E := Prng) ideal_os ideal_os 42 5000 10000
           "scratch" "scratch").
  - lia.
  - vm_compute. discriminate.
  - vm_compute. reflexivity.
  - vm_compute. reflexivity.
Defined.

(** X5. A call of [fwrite] that takes fewer bytes than asked stops the run
    at once: it is the last call of the run, followed by its diagnostic
    only; every call before it was taken in full; the status is 1, and
    there is no barrier call, no opening for reading and no call of
    [fread]. *)
Theorem short_write_stops {E : Engine} (o : os) (seed size : Z)
    (path : string) :
  0 <= size <= UINT64_MAX ->
  existsb short_call (fwrite_calls (fst (test_file o seed size path))) = true ->
  snd (test_file o seed size path) = Return 1 /\
  (exists pre data r,
     fst (test_file o seed size path) =
       pre ++ [Fwrite data r; Cerr failed_write] /\
     0 <= r < Z.of_nat (List.length data) /\
     forallb full_call (fwrite_calls pre) = true) /\
  barrier_calls (fst (test_file o seed size path)) = [] /\
  fread_calls (fst (test_file o seed size path)) = [] /\
  forallb (fun e => negb (is_reopen e)) (fst (test_file o seed size path)) =
    true.
Proof.
  intros Hsize Hshort.
  destruct (test_file_trace o seed size path Hsize)
    as (s & w & rd & num & Heq & Hw & Hrd & _ & Hloops).
  pose proof (write_loop_calls o size (proj1 Hsize) size (engine_seed seed)
                0%nat []) as Hcalls.
  cbv zeta in Hcalls. destruct Hcalls as (_ & _ & Hcase).
  rewrite Heq in *. cbn [fst snd] in *.
  rewrite fwrite_calls_trace_of in Hshort by assumption.
  rewrite barrier_calls_trace_of, fread_calls_trace_of by assumption.
  pose proof (trace_of_reopen path size w rd num Hw Hrd s) as Hre.
  assert (Hfull : s <> st_open_write -> s <> st_write ->
                  existsb short_call (fwrite_calls w) = false).
  { intros H1 H2. apply full_calls_not_short.
    destruct s; try congruence;
      destruct Hloops as (Hfst & Hsnd);
      try (destruct Hsnd as ((file & Hsnd) & _));
      try (destruct Hsnd as (file & Hsnd & _));
      rewrite Hsnd in Hcase; rewrite <- Hfst; apply Hcase. }
  destruct s; try (rewrite Hfull in Hshort by discriminate; discriminate);
    [discriminate Hshort|].
  destruct Hloops as (Hfst & Hsnd & _). rewrite Hsnd in Hcase.
  destruct Hcase as (pre & data & r & Hpre & Hr & Hprefull).
  rewrite Hfst in Hpre.
  change [Fwrite data r; Cerr failed_write]
    with ([Fwrite data r] ++ [Cerr failed_write]) in Hpre.
  rewrite app_assoc in Hpre. apply app_inj_tail in Hpre as [-> _].
  cbn [trace_of outcome_of] in *.
  split; [reflexivity|]. split.
  - exists (Fopen path mode_wb true :: pre), data, r.
    split; [cbn [app]; now rewrite <- app_assoc|].
    split; [lia | assumption].
  - split; [reflexivity|]. split; [reflexivity | exact Hre].
Qed.

Lemma short_write_stops_witness :
  snd (test_file (E := Prng) (full_after 9000) 42 10000 "scratch") = Return 1 /\
  (exists pre data r,
     fst (test_file (E := Prng) (full_after 9000) 42 10000 "scratch") =
       pre ++ [Fwrite data r; Cerr failed_write] /\
     0 <= r < Z.of_nat (List.length data) /\
     forallb full_call (fwrite_calls pre) = true) /\
  barrier_calls
    (fst (test_file (E := Prng) (full_after 9000) 42 10000 "scratch")) = [] /\
  fread_calls
    (fst (test_file (E := Prng) (full_after 9000) 42 10000 "scratch")) = [] /\
  forallb (fun e => negb (is_reopen e))
    (fst (test_file (E := Prng) (full_after 9000) 42 10000 "scratch")) = true.
Proof.
  apply (short_write_stops (E := Prng) (full_after 9000) 42 10000 "scratch").
  - vm_compute. split; discriminate.
  - vm_compute. reflexivity.
Defined.

(** X6. A file that comes back shorter than SIZE, in an environment
    otherwise without faults, makes the run stop in the read loop: a call of
    [fread] obtains fewer bytes than asked, its diagnostic is the last event,
    the status is 1 and no final report is printed; every call of [fread]
    before it was answered in full. *)
Theorem truncated_file_fails {E : Engine} (o : os) (seed size : Z)
    (path : string) :
  0 <= size <= UINT64_MAX ->
  reliable o path ->
  Z.of_nat (List.length (medium o (reference seed size))) < size ->
  snd (test_file o seed size path) = Return 1 /\
  final_report (fst (test_file o seed size path)) = None /\
  exists pre n data,
    fst (test_file o seed size path) =
      pre ++ [Fread n data; Cerr failed_read] /\
    Z.of_nat (List.length data) < n /\
    forallb full_call (fread_calls pre) = true.
Proof.
  intros Hsize (Hwb & Hroom & Hfl & Hfn & Hsy & Hcl & Hrb & Havail) Hshort.
  destruct (test_file_outcomes o seed size path Hsize)
    as [(c & _ & _ & _ & _ & Hrd & Hlen & _) | (Hret & Hnone & _)].
  { exfalso. rewrite Hrd, length_firstn in Hlen. lia. }
  split; [assumption|]. split; [assumption|].
  destruct (test_file_trace o seed size path Hsize)
    as (s & w & rd & num & Heq & Hw & Hrdev & Hcause & Hloops).
  rewrite Heq in *. cbn [fst snd] in *.
  destruct s; cbn [cause outcome_of] in *; try congruence;
    try (exfalso; intuition congruence).
  - exfalso. destruct Hcause as (_ & j & Hj). specialize (Hroom j). lia.
  - destruct Hloops as (Hfst & file & Hsnd & Hrfst & Hrsnd).
    pose proof (read_loop_calls o size (proj1 Hsize) size (engine_seed seed)
                  0%nat (medium o file) (as_bytes (repeat 0 buffer_size)) 0)
      as Hcalls.
    cbv zeta in Hcalls. destruct Hcalls as (_ & _ & Hcase).
    rewrite Hrsnd in Hcase.
    destruct Hcase as (pre & n & data & Hpre & Hn & Hprefull).
    rewrite Hrfst in Hpre.
    change [Fread n data; Cerr failed_read]
      with ([Fread n data] ++ [Cerr failed_read]) in Hpre.
    rewrite app_assoc in Hpre. apply app_inj_tail in Hpre as [-> _].
    destruct (write_events_inert w Hw) as (_ & Hfw & _).
    exists (Fopen path mode_wb true :: w ++ barrier size ++
            Fopen path mode_rb true :: pre), n, data.
    cbn [trace_of]. repeat split; try assumption.
    + cbn [app]. rewrite <- !app_assoc. reflexivity.
    + cbn [fread_calls flat_map app].
      fold (fread_calls (w ++ barrier size ++ Fopen path mode_rb true :: pre)).
      rewrite !fread_calls_app, Hfw. cbn [barrier fread_calls flat_map app].
      assumption.
Qed.

Lemma truncated_file_fails_witness :
  snd (test_file (E := Prng) (truncating_os (Z.to_nat 9000)) 42 10000
         "scratch") = Return 1 /\
  final_report
    (fst (test_file (E := Prng) (truncating_os (Z.to_nat 9000)) 42 10000
            "scratch")) = None /\
  exists pre n data,
    fst (test_file (E := Prng) (truncating_os (Z.to_nat 9000)) 42 10000
           "scratch") =
      pre ++ [Fread n data; Cerr failed_read] /\
    Z.of_nat (List.length data) < n /\
    forallb full_call (fread_calls pre) = true.
Proof.
  apply (truncated_file_fails (E := Prng) (truncating_os (Z.to_nat 9000)) 42
           10000 "scratch").
  - vm_compute. split; discriminate.
  - apply truncating_os_reliable.
  - vm_compute. reflexivity.
Defined.

(** X7. In every run, whether it succeeds or not, each call of [fwrite] and
    of [fread] asks for at least one byte and at most the 8192 bytes of the
    buffer and obtains no more than it asks for, and the bytes written in
    all and the bytes read in all never exceed SIZE. *)
Theorem transfers_bounded {E : Engine} (o : os) (seed size : Z)
    (path : string) :
  0 <= size <= UINT64_MAX ->
  Forall call_ok (fwrite_calls (fst (test_file o seed size path))) /\
  Forall call_ok (fread_calls (fst (test_file o seed size path))) /\
  bytes_moved (fwrite_calls (fst (test_file o seed size path))) <= size /\
  bytes_moved (fread_calls (fst (test_file o seed size path))) <= size.
Proof.
  intros Hsize.
  destruct (test_file_trace o seed size path Hsize)
    as (s & w & rd & num & Heq & Hw & Hrd & _ & Hloops).
  pose proof (write_loop_calls o size (proj1 Hsize) size (engine_seed seed)
                0%nat []) as Hwc.
  cbv zeta in Hwc. destruct Hwc as (Hwok & Hwmoved & _).
  rewrite Heq. cbn [fst].
  rewrite fwrite_calls_trace_of, fread_calls_trace_of by assumption.
  assert (Hwcalls : s <> st_open_write ->
            fwrite_calls w =
            fwrite_calls (fst (write_loop o size size (engine_seed seed) 0 []))).
  { intros Hs. destruct s; try congruence;
      destruct Hloops as (Hfst & _); rewrite Hfst; try reflexivity.
    rewrite fwrite_calls_app. cbn. now rewrite app_nil_r. }
  assert (Hrcalls : Forall call_ok (fread_calls rd) /\
                    bytes_moved (fread_calls rd) <= size).
  { destruct s;
      try (destruct Hloops as (_ & _ & ->); split; [constructor | cbn; lia]);
      try (destruct Hloops as (_ & ->); split; [constructor | cbn; lia]);
      destruct Hloops as (_ & file & _ & Hrl);
      pose proof (read_loop_calls o size (proj1 Hsize) size (engine_seed seed)
                    0%nat (medium o file) (as_bytes (repeat 0 buffer_size)) 0)
        as Hrc;
      cbv zeta in Hrc; destruct Hrc as (Hrok & Hrmoved & _).
    - destruct Hrl as (Hrfst & _). rewrite Hrfst, fread_calls_app in *.
      cbn [fread_calls flat_map] in *. now rewrite app_nil_r in *.
    - rewrite Hrl in *. now cbn [fst] in *. }
  destruct Hrcalls as (Hrok & Hrmoved).
  destruct s; try rewrite Hwcalls by discriminate;
    repeat split; auto; try constructor; cbn; lia.
Qed.

Lemma transfers_bounded_witness :
  Forall call_ok
    (fwrite_calls
       (fst (test_file (E := Prng) (full_after 9000) 42 10000 "scratch"))) /\
  Forall call_ok
    (fread_calls
       (fst (test_file (E := Prng) (full_after 9000) 42 10000 "scratch"))) /\
  bytes_moved
    (fwrite_calls
       (fst (test_file (E := Prng) (full_after 9000) 42 10000 "scratch")))
    <= 10000 /\
  bytes_moved
    (fread_calls
       (fst (test_file (E := Prng) (full_after 9000) 42 10000 "scratch")))
    <= 10000.
Proof.
  apply (transfers_bounded (E := Prng) (full_after 9000) 42 10000 "scratch").
  vm_compute. split; discriminate.
Defined.

(** X8. A run of at least one byte that reaches the end of [main] prints
    the status line of the whole size as the last event of each loop: the
    line of the write loop comes just before the barrier, and the line of
    the read loop just before the two lines of the summary. *)
Theorem final_status_lines {E : Engine} (o : os) (seed size : Z)
    (path : string) :
  0 < size <= UINT64_MAX ->
  snd (test_file o seed size path) = Continue tt ->
  exists w rd n,
    fst (test_file o seed size path) =
      Fopen path mode_wb true :: w ++
      Cout (Writing (percent size size)) :: barrier size ++
      Fopen path mode_rb true :: rd ++
      [Cout (Reading (percent size size)); Cout (ReadBytes size);
       Cout (Found n (percent n size))].
Proof.
  intros Hsize Hdone.
  assert (Hsize' : 0 <= size <= UINT64_MAX) by lia.
  destruct (test_file_trace o seed size path Hsize')
    as (s & w & rd & num & Heq & _ & _ & _ & Hloops).
  rewrite Heq in *. cbn [fst snd] in *.
  destruct s; try discriminate Hdone.
  destruct Hloops as (Hwfst & file & Hwsnd & Hrl).
  pose proof (write_loop_calls o size (proj1 Hsize') size (engine_seed seed)
                0%nat []) as Hwc.
  pose proof (read_loop_calls o size (proj1 Hsize') size (engine_seed seed)
                0%nat (medium o file) (as_bytes (repeat 0 buffer_size)) 0)
    as Hrc.
  cbv zeta in Hwc, Hrc. rewrite Hwsnd in Hwc. rewrite Hrl in Hrc.
  cbn [fst snd] in Hrc.
  destruct Hwc as (_ & _ & _ & Hwlast). destruct Hrc as (_ & _ & _ & Hrlast).
  destruct (Hwlast (proj1 Hsize)) as [w' Hw'].
  destruct (Hrlast (proj1 Hsize)) as [rd' Hrd'].
  rewrite Z.sub_0_r, wrap64_small in Hw', Hrd' by lia.
  rewrite Hw' in Hwfst. subst w rd.
  exists w', rd', num. cbn [trace_of].
  rewrite <- !app_assoc. reflexivity.
Qed.

Lemma final_status_lines_witness :
  exists w rd n,
    sample_run =
      Fopen "scratch" mode_wb true :: w ++
      Cout (Writing (percent 10000 10000)) :: barrier 10000 ++
      Fopen "scratch" mode_rb true :: rd ++
      [Cout (Reading (percent 10000 10000)); Cout (ReadBytes 10000);
       Cout (Found n (percent n 10000))].
Proof.
  apply (final_status_lines (E := Prng) ideal_os 42 10000 "scratch").
  - vm_compute. split; [reflexivity | discriminate].
  - vm_compute. reflexivity.
Defined.

(** X9. The mismatch counter of a final report lies between 0 and SIZE:
    the 64-bit counter cannot wrap, and it cannot exceed the number of
    bytes compared. *)
Theorem counter_bounded {E : Engine} (o : os) (seed size : Z)
    (path : string) (n : Z) :
  0 <= size <= UINT64_MAX ->
  mismatch_counter (fst (test_file o seed size path)) = Some n ->
  0 <= n <= size.
Proof.
  intros Hsize Hn.
  destruct (test_file_reported o seed size path Hsize n Hn)
    as (_ & _ & _ & _ & _ & Hlen & Hnum & _).
  pose proof (differing_le (read_back (fst (test_file o seed size path)))
                (reference seed size)) as Hle.
  lia.
Qed.

Lemma counter_bounded_witness : 0 <= 1 <= 10000.
Proof.
  apply (counter_bounded (E := Prng) (corrupting_os (Z.to_nat 9000)) 42 10000
           "scratch" 1).
  - vm_compute. split; discriminate.
  - vm_compute. reflexivity.
Defined.

(* ------------------------------------------------------------------ *)
(** ** Further properties: the cadence of the status lines *)

Section Cadence.

Lemma cadence_last (size d n : Z) :
  0 <= d -> d mod 8192 = 0 -> 0 < n <= 8192 -> size = d + n ->
  (size - 1) / 16777216 = d / 16777216.
Proof. intros. subst size. Z.to_euclidean_division_equations. lia. Qed.

Lemma cadence_step (d : Z) :
  0 <= d -> d mod 8192 = 0 ->
  (d + 8192) / 16777216 - d / 16777216 =
    (if (d + 8192) mod 16777216 =? 0 then 1 else 0).
Proof.
  intros. destruct ((d + 8192) mod 16777216 =? 0) eqn:Hc.
  - apply Z.eqb_eq in Hc. Z.to_euclidean_division_equations. lia.
  - apply Z.eqb_neq in Hc. Z.to_euclidean_division_equations. lia.
Qed.

(** One pass of a loop that starts on a buffer boundary prints the line
    that [lines_from] counts, or none. *)
Lemma lines_step (line : float -> report) (size bytes_left : Z) :
  0 < bytes_left <= size -> size <= UINT64_MAX ->
  (size - bytes_left) mod buffer_size_bytes = 0 ->
  Z.of_nat
    (List.length
       (fst (status line size
               (bytes_left - Z.min bytes_left buffer_size_bytes)))) +
  lines_from size (bytes_left - Z.min bytes_left buffer_size_bytes) =
    lines_from size bytes_left.
Proof.
  intros Hbl Hmax Hal. unfold status, lines_from.
  rewrite buffer_size_bytes_eq in *. change status_interval with 16777216.
  rewrite wrap64_small by lia.
  destruct (Z.eqb_spec bytes_left 0) as [H0 | _]; [lia|].
  destruct (Z_le_gt_dec bytes_left 8192) as [Hle | Hgt].
  - rewrite Z.min_l, Z.sub_diag by lia. rewrite Z.eqb_refl, orb_true_r.
    cbn [fst List.length emit].
    rewrite (cadence_last size (size - bytes_left) bytes_left) by lia.
    lia.
  - rewrite Z.min_r by lia.
    destruct (Z.eqb_spec (bytes_left - 8192) 0) as [H0 | _]; [lia|].
    rewrite orb_false_r.
    replace (size - (bytes_left - 8192)) with (size - bytes_left + 8192)
      by lia.
    pose proof (cadence_step (size - bytes_left) ltac:(lia) Hal) as Hstep.
    destruct ((size - bytes_left + 8192) mod 16777216 =? 0);
      cbn [fst List.length Z.of_nat emit ret]; lia.
Qed.

Lemma lines_from_start (size : Z) :
  0 <= size ->
  lines_from size size = (size + status_interval - 1) / status_interval.
Proof.
  intros Hsize. unfold lines_from. change status_interval with 16777216.
  rewrite Z.sub_diag.
  destruct (Z.eqb_spec size 0) as [-> | Hne]; [reflexivity|].
  Z.to_euclidean_division_equations. lia.
Qed.

Lemma writing_lines_app (evs evs' : list event) :
  writing_lines (evs ++ evs') = (writing_lines evs + writing_lines evs')%nat.
Proof. unfold writing_lines. now rewrite filter_app, length_app. Qed.

Lemma reading_lines_app (evs evs' : list event) :
  reading_lines (evs ++ evs') = (reading_lines evs + reading_lines evs')%nat.
Proof. unfold reading_lines. now rewrite filter_app, length_app. Qed.

Lemma status_writing_lines (size bytes_left : Z) :
  writing_lines (fst (status Writing size bytes_left)) =
    List.length (fst (status Writing size bytes_left)).
Proof. unfold status. now destruct (_ || _). Qed.

Lemma status_reading_lines (size bytes_left : Z) :
  reading_lines (fst (status Reading size bytes_left)) =
    List.length (fst (status Reading size bytes_left)).
Proof. unfold status. now destruct (_ || _). Qed.

Lemma write_events_no_reading (evs : list event) :
  forallb write_event evs = true -> reading_lines evs = 0%nat.
Proof.
  induction evs as [|e evs IH]; [reflexivity|].
  destruct e as [d|[]| | | | | | |]; simpl; try discriminate; auto.
Qed.

Lemma read_events_no_writing (evs : list event) :
  forallb read_event evs = true -> writing_lines evs = 0%nat.
Proof.
  induction evs as [|e evs IH]; [reflexivity|].
  destruct e as [d|[]| | | | | | |]; simpl; try discriminate; auto.
Qed.

Context {E : Engine}.
Variable o : os.

(** A write loop that starts on a buffer boundary and finishes prints
    [lines_from] status lines. *)
Lemma write_loop_lines (bytes_left : Z) :
  0 <= bytes_left ->
  forall (size : Z) (prng : engine_state) (k : nat) (file : list Z),
  bytes_left <= size -> size <= UINT64_MAX ->
  (size - bytes_left) mod buffer_size_bytes = 0 ->
  (exists file',
     snd (write_loop o size bytes_left prng k file) = Continue file') ->
  Z.of_nat (writing_lines (fst (write_loop o size bytes_left prng k file))) =
    lines_from size bytes_left.
Proof.
  intros Hbl. pattern bytes_left. apply Zlt_0_ind; [|assumption].
  clear bytes_left Hbl.
  intros bl IH Hbl size prng k file Hle Hmax Hal [file' Hdone].
  destruct (Z.eq_dec bl 0) as [-> | Hne].
  - rewrite write_loop_done by lia. reflexivity.
  - rewrite <- (lines_step Writing size bl) by lia.
    rewrite write_loop_step in * by lia. cbv zeta in *.
    set (n := Z.min bl buffer_size_bytes) in *.
    assert (Hn : 0 < n <= bl /\ n <= buffer_size_bytes)
      by (subst n; rewrite buffer_size_bytes_eq; lia).
    destruct (fwrite o k n <? n); [discriminate Hdone|].
    cbn [fst snd] in *.
    change (Fwrite ?d ?r :: ?l) with ([Fwrite d r] ++ l).
    rewrite !writing_lines_app, status_writing_lines.
    cbn [writing_lines filter List.length Nat.add].
    rewrite Nat2Z.inj_add. f_equal.
    destruct (Z.eq_dec (bl - n) 0) as [H0 | Hpos].
    + rewrite H0. rewrite write_loop_done by lia. reflexivity.
    + apply IH; try lia; [|eauto].
      replace (size - (bl - n)) with (size - bl + 1 * n) by lia.
      assert (n = buffer_size_bytes) as -> by (subst n; lia).
      now rewrite Z.mod_add by (rewrite buffer_size_bytes_eq; lia).
Qed.

Lemma read_loop_lines (bytes_left : Z) :
  0 <= bytes_left ->
  forall (size : Z) (prng : engine_state) (k : nat)
         (unread read_bytes : list Z) (num : Z),
  bytes_left <= size -> size <= UINT64_MAX ->
  (size - bytes_left) mod buffer_size_bytes = 0 ->
  (exists num',
     snd (read_loop o size bytes_left prng k unread read_bytes num) =
       Continue num') ->
  Z.of_nat
    (reading_lines
       (fst (read_loop o size bytes_left prng k unread read_bytes num))) =
    lines_from size bytes_left.
Proof.
  intros Hbl. pattern bytes_left. apply Zlt_0_ind; [|assumption].
  clear bytes_left Hbl.
  intros bl IH Hbl size prng k unread read_bytes num Hle Hmax Hal
    [num' Hdone].
  destruct (Z.eq_dec bl 0) as [-> | Hne].
  - rewrite read_loop_done by lia. reflexivity.
  - rewrite <- (lines_step Reading size bl) by lia.
    rewrite read_loop_step in * by lia. cbv zeta in *.
    set (n := Z.min bl buffer_size_bytes) in *.
    assert (Hn : 0 < n <= bl /\ n <= buffer_size_bytes)
      by (subst n; rewrite buffer_size_bytes_eq; lia).
    destruct (Z.of_nat (List.length (fread o k unread n)) <? n);
      [discriminate Hdone|].
    cbn [fst snd] in *.
    change (Fread ?c ?d :: ?l) with ([Fread c d] ++ l).
    rewrite !reading_lines_app, status_reading_lines.
    cbn [reading_lines filter List.length Nat.add].
    rewrite Nat2Z.inj_add. f_equal.
    destruct (Z.eq_dec (bl - n) 0) as [H0 | Hpos].
    + rewrite H0. rewrite read_loop_done by lia. reflexivity.
    + apply IH; try lia; [|eauto].
      replace (size - (bl - n)) with (size - bl + 1 * n) by lia.
      assert (n = buffer_size_bytes) as -> by (subst n; lia).
      now rewrite Z.mod_add by (rewrite buffer_size_bytes_eq; lia).
Qed.

End Cadence.

(** X10. A run that reaches the end of [main] prints, in each of its two
    loops, one status line for every started stretch of 16 MiB of SIZE, that
    is SIZE / 16 MiB rounded up: none is skipped and none is printed
    twice. *)
Theorem status_line_count {E : Engine} (o : os) (seed size : Z)
    (path : string) :
  0 <= size <= UINT64_MAX ->
  snd (test_file o seed size path) = Continue tt ->
  Z.of_nat (writing_lines (fst (test_file o seed size path))) =
    (size + status_interval - 1) / status_interval /\
  Z.of_nat (reading_lines (fst (test_file o seed size path))) =
    (size + status_interval - 1) / status_interval.
Proof.
  intros Hsize Hdone.
  destruct (test_file_trace o seed size path Hsize)
    as (s & w & rd & num & Heq & Hw & Hrd & _ & Hloops).
  rewrite Heq in *. cbn [fst snd] in *.
  destruct s; try discriminate Hdone.
  destruct Hloops as (Hwfst & file & Hwsnd & Hrl).
  assert (Hal : (size - size) mod buffer_size_bytes = 0)
    by now rewrite Z.sub_diag.
  pose proof (write_loop_lines o size (proj1 Hsize) size (engine_seed seed)
                0%nat [] (Z.le_refl size) (proj2 Hsize) Hal
                (ex_intro _ file Hwsnd)) as Hwl.
  pose proof (read_loop_lines o size (proj1 Hsize) size (engine_seed seed)
                0%nat (medium o file) (as_bytes (repeat 0 buffer_size)) 0
                (Z.le_refl size) (proj2 Hsize) Hal) as Hrll.
  rewrite Hrl in Hrll. cbn [fst snd] in Hrll.
  specialize (Hrll (ex_intro _ num eq_refl)).
  rewrite Hwfst in Hwl. rewrite lines_from_start in Hwl, Hrll by lia.
  cbn [trace_of].
  change (Fopen path mode_wb true :: ?l)
    with ([Fopen path mode_wb true] ++ l).
  change (Fopen path mode_rb true :: ?l)
    with ([Fopen path mode_rb true] ++ l).
  rewrite !writing_lines_app, !reading_lines_app.
  rewrite (read_events_no_writing rd Hrd), (write_events_no_reading w Hw).
  cbn. change status_interval with 16777216 in *. split; lia.
Qed.

Lemma status_line_count_witness :
  Z.of_nat (writing_lines sample_run) = 1 /\
  Z.of_nat (reading_lines sample_run) = 1.
Proof.
  apply (status_line_count (E := Prng) ideal_os 42 10000 "scratch").
  - vm_compute. split; discriminate.
  - vm_compute. reflexivity.
Defined.

(* ------------------------------------------------------------------ *)
(** ** Further properties: what [parse_size] accepts *)

Section Accepted.

Lemma string_view_idempotent (s : string) :
  string_view (string_view s) = string_view s.
Proof.
  induction s as [|c s IH]; [reflexivity|]. cbn [string_view].
  destruct (Ascii.eqb c NUL) eqn:Hc; [reflexivity|].
  cbn [string_view]. now rewrite Hc, IH.
Qed.

Lemma parse_size_string_view (s : string) :
  parse_size (string_view s) = parse_size s.
Proof. unfold parse_size. now rewrite string_view_idempotent. Qed.

(** Every string is a run of digits followed by something that does not
    start with a digit. *)
Lemma split_digits (s : string) :
  exists ds rest,
    s = (ds ++ rest)%string /\ all_digits ds = true /\
    is_digit (deref rest) = false.
Proof.
  induction s as [|c s (ds & rest & -> & Hds & Hrest)].
  - now exists EmptyString, EmptyString.
  - destruct (is_digit c) eqn:Hc.
    + exists (String c ds), rest. cbn [append all_digits].
      now rewrite Hc, Hds.
    + now exists EmptyString, (String c (ds ++ rest)).
Qed.

Lemma append_empty_r (s : string) : (s ++ EmptyString)%string = s.
Proof. induction s as [|c s IH]; cbn [append]; congruence. Qed.

Lemma append_inv_head (s a b : string) :
  (s ++ a)%string = (s ++ b)%string -> a = b.
Proof.
  induction s as [|c s IH]; cbn [append]; [auto|].
  intros [= H]. auto.
Qed.

(** The view of a C string holds no NUL. *)
Lemma string_view_no_NUL (s ds rest : string) :
  all_digits ds = true ->
  string_view s = (ds ++ String NUL rest)%string -> False.
Proof.
  intros Hds Heq. pose proof (string_view_idempotent s) as Hid.
  rewrite Heq, string_view_digits in Hid by assumption.
  cbn [string_view] in Hid. rewrite Ascii.eqb_refl in Hid.
  apply append_inv_head in Hid. discriminate Hid.
Qed.

End Accepted.

(** X11. What [parse_size] accepts, and with what value.  It returns a
    value exactly when the argument is a numeral that fits in 64 bits
    followed by nothing, in which case the value is that of the numeral, or
    followed by a unit letter and anything at all, in which case the value
    is the product of numeral and unit reduced to 64 bits. *)
Theorem parse_size_accepts_iff (s : string) (v : Z) :
  parse_size s = Some v <->
  exists ds rest,
    string_view s = (ds ++ rest)%string /\
    numeral ds /\ decimal ds <= UINT64_MAX /\
    (rest = EmptyString /\ v = decimal ds \/
     exists c rest' f,
       rest = String c rest' /\ unit_of c = Some f /\
       v = wrap64 (decimal ds * f)).
Proof.
  rewrite <- parse_size_string_view. split.
  - intros Hparse.
    destruct (split_digits (string_view s)) as (ds & rest & Heq & Hds & Hrest).
    rewrite Heq in Hparse.
    destruct ds as [|d ds].
    { cbn [append] in Hparse. now rewrite parse_size_no_digit in Hparse. }
    assert (Hnum : numeral (String d ds)) by (split; [discriminate | exact Hds]).
    exists (String d ds), rest. split; [assumption|]. split; [assumption|].
    destruct rest as [|c rest'].
    + rewrite append_empty_r, parse_size_numeral in Hparse by assumption.
      destruct (Z.leb_spec (decimal (String d ds)) UINT64_MAX);
        [|discriminate]. injection Hparse as <-. auto.
    + cbn [deref] in Hrest.
      rewrite parse_size_numeral_then in Hparse by assumption.
      destruct (Z.leb_spec (decimal (String d ds)) UINT64_MAX);
        [|discriminate]. split; [assumption|]. right.
      destruct (unit_of c) as [f|] eqn:Hunit.
      * rewrite (apply_suffix_unit c f) in Hparse by assumption.
        injection Hparse as <-. now exists c, rest', f.
      * rewrite apply_suffix_other in Hparse; [discriminate|assumption|].
        intros ->. exact (string_view_no_NUL s (String d ds) rest' Hds Heq).
  - intros (ds & rest & -> & Hnum & Hmax &
            [[-> ->] | (c & rest' & f & -> & Hunit & ->)]).
    + rewrite append_empty_r, parse_size_numeral by assumption.
      apply Z.leb_le in Hmax. now rewrite Hmax.
    + now apply parse_size_unit.
Qed.

(** X12. The barrier is not attempted on a file that is only partly
    written: a run with any barrier call has made the calls of [fwrite] for
    the whole of SIZE, each taken in full, and the bytes written are the
    reference stream of the seed. *)
Theorem barrier_after_full_write {E : Engine} (o : os) (seed size : Z)
    (path : string) :
  0 <= size <= UINT64_MAX ->
  barrier_calls (fst (test_file o seed size path)) <> [] ->
  written (fst (test_file o seed size path)) = reference seed size /\
  fwrite_calls (fst (test_file o seed size path)) =
    map (fun n => (n, n)) (chunk_sizes size) /\
  Z.of_nat (List.length (written (fst (test_file o seed size path)))) = size.
Proof.
  intros Hsize Hbarrier.
  destruct (test_file_trace o seed size path Hsize)
    as (s & w & rd & num & Heq & Hw & Hrd & _ & Hloops).
  pose proof (write_loop_spec o size (proj1 Hsize) size (engine_seed seed)
                0%nat []) as Hspec.
  cbv zeta in Hspec.
  rewrite Heq in *. cbn [fst] in *.
  rewrite barrier_calls_trace_of in Hbarrier by assumption.
  rewrite written_trace_of, fwrite_calls_trace_of by assumption.
  assert (Href : List.length (reference seed size) = Z.to_nat size)
    by apply stream_bytes_length.
  destruct s; try congruence;
    destruct Hloops as (Hfst & Hsnd);
    try (destruct Hsnd as ((file & Hsnd) & _));
    try (destruct Hsnd as (file & Hsnd & _));
    rewrite Hsnd, Hfst in Hspec;
    destruct Hspec as (_ & _ & Hwr & Hcalls);
    fold (reference seed size) in Hwr;
    rewrite Hwr, Hcalls, Href; repeat split; lia.
Qed.

Lemma barrier_after_full_write_witness :
  written (fst (test_file (E := Prng) fsync_failing_os 42 10000 "scratch")) =
    reference 42 10000 /\
  fwrite_calls
    (fst (test_file (E := Prng) fsync_failing_os 42 10000 "scratch")) =
    [(8192, 8192); (1808, 1808)] /\
  Z.of_nat
    (List.length
       (written
          (fst (test_file (E := Prng) fsync_failing_os 42 10000 "scratch"))))
  = 10000.
Proof.
  apply (barrier_after_full_write (E := Prng) fsync_failing_os 42 10000
           "scratch").
  - vm_compute. split; discriminate.
  - vm_compute. discriminate.
Defined.
